(** * Verification of the analytics pages

    Shallow embedding of the two numeric cores of the repository:

    - [src/pages/System_of_Equations.py]: the closed-form solver of a
      system of two linear equations in two unknowns and the sampling of
      the two lines for the plot ([line_points]);
    - [src/Linear_Programming.py]: the construction of a PuLP model from
      the form data ([build_model]) and the rendering of the outcome
      ([main]).

    Numbers are rationals ([Q]): the Python floats of the source are read
    as exact values, so every operation below is the exact-arithmetic
    reading of the float operation it embeds.  Equality of rationals is
    [Qeq] (written [==]). *)

From Stdlib Require Import QArith Qabs Qminmax Qfield Lia Lqa.
From stdpp Require Import gmap strings list fin_maps pretty.

Local Open Scope Q_scope.

(** ** Exceptions

    Python code fails by raising.  The embedding returns a value of
    [exn + A]: [inl e] when the exception [e] escapes, [inr v] for a
    normal return. *)

Inductive exn : Type :=
  | ZeroDivisionError
  | KeyError (key : string)
  | PulpSolverError (msg : string).

Definition result (A : Type) : Type := (exn + A)%type.

Definition ret {A} (a : A) : result A := inr a.

Definition raise {A} (e : exn) : result A := inl e.

Definition bind {A B} (m : result A) (k : A -> result B) : result B :=
  match m with
  | inl e => inl e
  | inr a => k a
  end.

Notation "'try!' x ':=' m 'in' k" := (bind m (fun x => k))
  (at level 10, x name, m at level 100, k at level 200).

Fixpoint mapM {A B} (f : A -> result B) (l : list A) : result (list B) :=
  match l with
  | [] => ret []
  | a :: l' =>
      try! b := f a in
      try! bs := mapM f l' in
      ret (b :: bs)
  end.

(** ** Float comparisons and division, read exactly *)

(** [x > y] as Python evaluates it. *)
Definition gt (x y : Q) : bool := negb (Qle_bool x y).

(** [x / y] on Python floats: raises [ZeroDivisionError] on a zero
    divisor.  The same definition stands for numpy's element-wise
    division, whose result on a zero divisor (inf or nan) is no number. *)
Definition py_div (x y : Q) : result Q :=
  if Qeq_bool y 0 then raise ZeroDivisionError else ret (x / y).

(** A division that refuses every divisor whose absolute value does not
    exceed the tolerance [tol]: running the code with it checks that each
    division it reaches is guarded. *)
Definition guarded_div (tol : Q) (x y : Q) : result Q :=
  if gt (Qabs y) tol then ret (x / y) else raise ZeroDivisionError.

(** [np.isfinite]: every rational is finite. *)
Definition isfinite (x : Q) : bool := true.

(** [np.linspace(start, stop, num)] with the default [endpoint=True]:
    [num] samples [start + i * step], [step = (stop - start) / (num - 1)],
    the last one set to [stop] itself. *)
Definition linspace_step (start stop : Q) (num : nat) : Q :=
  (stop - start) / inject_Z (Z.of_nat (num - 1)).

Definition linspace_raw (start stop : Q) (num : nat) : list Q :=
  map (fun i : nat => inject_Z (Z.of_nat i) * linspace_step start stop num + start)
      (seq 0 num).

Definition linspace (start stop : Q) (num : nat) : list Q :=
  match num with
  | O => []
  | S O => [start]
  | S n => take n (linspace_raw start stop num) ++ [stop]
  end.

(** [lo <= y <= hi] *)
Definition within (lo hi : Q) (y : Q) : bool := Qle_bool lo y && Qle_bool y hi.

(** [np.full_like(arr, v)]: an array of the shape of [arr] filled with [v]. *)
Definition full_like (arr : list Q) (v : Q) : list Q := map (fun _ => v) arr.

(** ** src/pages/System_of_Equations.py *)

Definition eps : Q := 1 # 1000000000.

(** The state of the script after the "Solve system" block. *)
Record Solution : Type := mkSolution {
  det : Q;
  has_unique : bool;
  x_sol : option Q;
  y_sol : option Q
}.

(** Lines 97-114: determinant, classification, Cramer's rule. *)
Definition solve_system (a1 b1 c1 a2 b2 c2 : Q) : result Solution :=
  let det := a1 * b2 - a2 * b1 in
  let has_unique := gt (Qabs det) eps in
  if has_unique then
    try! x := py_div (c1 * b2 - c2 * b1) det in
    try! y := py_div (a1 * c2 - a2 * c1) det in
    ret (mkSolution det has_unique (Some x) (Some y))
  else
    ret (mkSolution det has_unique None None).

(** Lines 118-124: the x-range of the plot and its 400 samples. *)
Definition x_range (s : Solution) : Q * Q :=
  let x_min := -(10) in
  let x_max := 10 in
  match has_unique s, x_sol s with
  | true, Some x =>
      if isfinite x then
        let margin := 5 in
        (Qmin x_min (x - margin), Qmax x_max (x + margin))
      else (x_min, x_max)
  | _, _ => (x_min, x_max)
  end.

Definition x_vals (s : Solution) : list Q :=
  let '(x_min, x_max) := x_range s in
  linspace x_min x_max 400.

(** Lines 126-139.  [x_vals] is the global the function closes over;
    the division is a parameter so that the same body runs with
    [py_div] and with [guarded_div]. *)
Definition line_points_with (divide : Q -> Q -> result Q)
    (x_vals : list Q) (a b c : Q)
    : result (list Q * list Q * bool * option Q) :=
  if gt (Qabs b) eps then
    try! y_vals := mapM (fun x => divide (c - a * x) b) x_vals in
    ret (x_vals, y_vals, false, None)
  else if gt (Qabs a) eps then
    try! x_vert := divide c a in
    let y_vals := linspace (-(10)) 10 400 in
    let x_arr := full_like y_vals x_vert in
    ret (x_arr, y_vals, true, Some x_vert)
  else
    ret ([], [], false, None).

Definition line_points : list Q -> Q -> Q -> Q -> result (list Q * list Q * bool * option Q) :=
  line_points_with py_div.

(** ** PuLP objects used by src/Linear_Programming.py

    PuLP is an external library; its objects are modelled by what
    [build_model] and [main] do with them. *)

Inductive LpSense : Type := LpMinimize | LpMaximize.

(** [pl.LpStatus]: the status codes and their names. *)
Inductive LpStatusCode : Type :=
  | LpStatusNotSolved
  | LpStatusOptimal
  | LpStatusInfeasible
  | LpStatusUnbounded
  | LpStatusUndefined.

Definition LpStatus (st : LpStatusCode) : string :=
  match st with
  | LpStatusNotSolved => "Not Solved"
  | LpStatusOptimal => "Optimal"
  | LpStatusInfeasible => "Infeasible"
  | LpStatusUnbounded => "Unbounded"
  | LpStatusUndefined => "Undefined"
  end.

(** [pl.LpVariable(name, lowBound=None, upBound=None)]: a bound [None]
    is an absent bound. *)
Record LpVariable : Type := mkLpVariable {
  name : string;
  lowBound : option Q;
  upBound : option Q
}.

Definition new_LpVariable (name : string) (lowBound : option Q) : LpVariable :=
  mkLpVariable name lowBound None.

(** A linear expression: the terms [coeff * variable] handed to [pl.lpSum],
    in order. *)
Abbreviation LpAffineExpression := (list (Q * LpVariable)).

Inductive LpConstraintSense : Type :=
  | LpConstraintLE
  | LpConstraintGE
  | LpConstraintEQ.

Record LpConstraint : Type := mkLpConstraint {
  cname : string;
  expr : LpAffineExpression;
  csense : LpConstraintSense;
  rhs : Q
}.

(** [status] and [varValue] are what [model.solve()] writes: the status
    code of the model and the value of each variable, kept by variable
    name. *)
Record LpProblem : Type := mkLpProblem {
  pname : string;
  sense : LpSense;
  objective : LpAffineExpression;
  constraints : list LpConstraint;
  status : LpStatusCode;
  varValue : gmap string Q
}.

Definition new_LpProblem (pname : string) (sense : LpSense) : LpProblem :=
  mkLpProblem pname sense [] [] LpStatusNotSolved ∅.

(** [model += expr, "Objective"] *)
Definition set_objective (model : LpProblem) (e : LpAffineExpression) : LpProblem :=
  mkLpProblem (pname model) (sense model) e (constraints model)
              (status model) (varValue model).

(** [model += constraint, cname] *)
Definition add_constraint (model : LpProblem) (c : LpConstraint) : LpProblem :=
  mkLpProblem (pname model) (sense model) (objective model)
              (constraints model ++ [c]) (status model) (varValue model).

(** The external solver behind [model.solve()]: given the model it either
    raises or yields a status and values for the variables. *)
Definition Solver : Type := LpProblem -> result (LpStatusCode * gmap string Q).

Definition solve (solver : Solver) (model : LpProblem) : result LpProblem :=
  try! out := solver model in
  ret (mkLpProblem (pname model) (sense model) (objective model)
                   (constraints model) (fst out) (snd out)).

(** [d[key]] on a Python dict. *)
Definition getitem {V} (d : gmap string V) (key : string) : result V :=
  match d !! key with
  | Some v => ret v
  | None => raise (KeyError key)
  end.

(** [enumerate(l, start)] *)
Definition enumerate {A} (l : list A) (start : nat) : list (nat * A) :=
  zip (seq start (length l)) l.

Fixpoint foldM {A B} (f : B -> A -> result B) (b : B) (l : list A) : result B :=
  match l with
  | [] => ret b
  | a :: l' => try! b' := f b a in foldM f b' l'
  end.

(** ** src/Linear_Programming.py: [build_model] *)

(** [pl.lpSum(coeff * variables[name] for coeff, name in zip(coeffs, var_names))] *)
Definition lpSum_terms (variables : gmap string LpVariable)
    (coeffs : list Q) (var_names : list string) : result LpAffineExpression :=
  mapM (fun cn : Q * string =>
          try! v := getitem variables (snd cn) in
          ret (fst cn, v))
       (zip coeffs var_names).

Definition build_model (solver : Solver)
    (var_names : list string) (obj_coeffs : list Q)
    (constraints : list (list Q * string * Q))
    (sense : string) (nonneg : bool)
    : result (LpProblem * gmap string LpVariable) :=
  let sense_flag := if String.eqb sense "Maximize" then LpMaximize else LpMinimize in
  let model := new_LpProblem "User_Defined_LP" sense_flag in
  let variables :=
    foldl (fun (variables : gmap string LpVariable) name =>
             let lb := if nonneg then Some 0 else None in
             <[name := new_LpVariable name lb]> variables)
          ∅ var_names in
  try! objective := lpSum_terms variables obj_coeffs var_names in
  let model := set_objective model objective in
  try! model :=
    foldM (fun model (ic : nat * (list Q * string * Q)) =>
             let '(idx, (row_coeffs, relation, rhs)) := ic in
             try! expr := lpSum_terms variables row_coeffs var_names in
             let cname := "constr_" +:+ pretty idx in
             if String.eqb relation "<=" then
               ret (add_constraint model (mkLpConstraint cname expr LpConstraintLE rhs))
             else if String.eqb relation ">=" then
               ret (add_constraint model (mkLpConstraint cname expr LpConstraintGE rhs))
             else
               ret (add_constraint model (mkLpConstraint cname expr LpConstraintEQ rhs)))
          model (enumerate constraints 1) in
  try! model := solve solver model in
  ret (model, variables).

(** *** What [build_model] hands to the solver

    The objects the statements below speak of: the lower bound chosen by
    [nonneg], the dictionary of variables, the terms of a sum, the
    constraint made from one row, and the whole model at the moment
    [model.solve()] is called. *)

Definition lower_bound (nonneg : bool) : option Q :=
  if nonneg then Some 0 else None.

Definition built_variables (var_names : list string) (nonneg : bool)
    : gmap string LpVariable :=
  foldl (fun (variables : gmap string LpVariable) name =>
           <[name := new_LpVariable name (lower_bound nonneg)]> variables)
        ∅ var_names.

Definition paired_terms (nonneg : bool) (coeffs : list Q) (var_names : list string)
    : LpAffineExpression :=
  map (fun cn : Q * string => (fst cn, new_LpVariable (snd cn) (lower_bound nonneg)))
      (zip coeffs var_names).

Definition relation_sense (relation : string) : LpConstraintSense :=
  if String.eqb relation "<=" then LpConstraintLE
  else if String.eqb relation ">=" then LpConstraintGE
  else LpConstraintEQ.

Definition built_constraint (nonneg : bool) (var_names : list string)
    (ic : nat * (list Q * string * Q)) : LpConstraint :=
  let '(idx, (row_coeffs, relation, rhs)) := ic in
  mkLpConstraint ("constr_" +:+ pretty idx)
                 (paired_terms nonneg row_coeffs var_names)
                 (relation_sense relation) rhs.

Definition built_model (var_names : list string) (obj_coeffs : list Q)
    (constraints : list (list Q * string * Q))
    (sense : string) (nonneg : bool) : LpProblem :=
  mkLpProblem "User_Defined_LP"
              (if String.eqb sense "Maximize" then LpMaximize else LpMinimize)
              (paired_terms nonneg obj_coeffs var_names)
              (map (built_constraint nonneg var_names) (enumerate constraints 1))
              LpStatusNotSolved ∅.

(** Inputs that do not have the shape the form produces: an objective
    row shorter than the list of names, a constraint row of another
    length than the list of names, or a relation token outside
    ["<="], [">="], ["="]. *)
Definition ill_formed (var_names : list string) (obj_coeffs : list Q)
    (constraints : list (list Q * string * Q)) : Prop :=
  (length obj_coeffs < length var_names)%nat \/
  Exists (fun c => length (fst (fst c)) <> length var_names) constraints \/
  Exists (fun c => snd (fst c) ∉ ["<="; ">="; "="]) constraints.

(** ** src/Linear_Programming.py: [main], from the "Solve model" button on *)

(** What the page shows: the calls to streamlit, in order. *)
Inductive Output : Type :=
  | st_markdown (body : string)
  | st_write_status (label status : string)
  | st_subheader (body : string)
  | st_table (df : gmap string (option Q))
  | st_write_value (v : option Q)
  | st_warning (body : string)
  | st_error (e : exn).

(** [var.value()]: the value the solver left in the variable. *)
Definition value_of_var (model : LpProblem) (var : LpVariable) : option Q :=
  varValue model !! name var.

(** [pl.value(expression)]: the expression evaluated at the variables'
    values, [None] as soon as a variable has none. *)
Fixpoint value_of_expr (model : LpProblem) (e : LpAffineExpression) : option Q :=
  match e with
  | [] => Some 0
  | (coeff, var) :: e' =>
      match value_of_var model var, value_of_expr model e' with
      | Some x, Some s => Some (x * coeff + s)
      | _, _ => None
      end
  end.

(** Lines 167-191: the body of the [try] once [build_model] has run, and
    the [except] clause. *)
Definition show_results (r : result (LpProblem * gmap string LpVariable)) : list Output :=
  match r with
  | inr (model, variables) =>
      let status := LpStatus (status model) in
      [st_markdown "### 4️⃣ Results"; st_write_status "**Status:**" status] ++
      (if String.eqb status "Optimal" then
         let sol := (fun var => value_of_var model var) <$> variables in
         [st_subheader "Decision variable values";
          st_table sol;
          st_subheader "Objective value";
          st_write_value (value_of_expr model (objective model))]
       else
         [st_warning "Model status is not 'Optimal'. Check your formulation and constraints."])
  | inl e => [st_error e]
  end.

Definition main_solve (solver : Solver)
    (var_names : list string) (obj_coeffs : list Q)
    (constraints : list (list Q * string * Q))
    (sense : string) (nonneg : bool) : list Output :=
  show_results (build_model solver var_names obj_coeffs constraints sense nonneg).

Definition is_table (o : Output) : bool :=
  match o with st_table _ => true | _ => false end.

Definition is_objective_value (o : Output) : bool :=
  match o with st_write_value _ => true | _ => false end.

Definition is_warning (o : Output) : bool :=
  match o with st_warning _ => true | _ => false end.

(** ** Meaning of a linear program

    The solver is external; what its statuses mean is fixed here, over
    valuations of the variables by name. *)

Definition Valuation : Type := string -> Q.

Fixpoint eval (rho : Valuation) (e : LpAffineExpression) : Q :=
  match e with
  | [] => 0
  | t :: e' => fst t * rho (name (snd t)) + eval rho e'
  end.

Definition in_bounds (rho : Valuation) (var : LpVariable) : Prop :=
  match lowBound var with Some l => l <= rho (name var) | None => True end /\
  match upBound var with Some u => rho (name var) <= u | None => True end.

Definition holds (rho : Valuation) (c : LpConstraint) : Prop :=
  match csense c with
  | LpConstraintLE => eval rho (expr c) <= rhs c
  | LpConstraintGE => rhs c <= eval rho (expr c)
  | LpConstraintEQ => eval rho (expr c) == rhs c
  end.

(** The variables of a model: those of its objective and constraints. *)
Definition lp_variables (model : LpProblem) : list LpVariable :=
  map snd (objective model) ++ flat_map (fun c => map snd (expr c)) (constraints model).

Definition feasible (model : LpProblem) (rho : Valuation) : Prop :=
  Forall (in_bounds rho) (lp_variables model) /\
  Forall (holds rho) (constraints model).

(** [better s x y]: objective value [x] is strictly better than [y]. *)
Definition better (s : LpSense) (x y : Q) : Prop :=
  match s with
  | LpMaximize => y < x
  | LpMinimize => x < y
  end.

Definition objective_at (model : LpProblem) (rho : Valuation) : Q :=
  eval rho (objective model).

Definition lp_infeasible (model : LpProblem) : Prop :=
  forall rho, ~ feasible model rho.

Definition lp_unbounded (model : LpProblem) : Prop :=
  (exists rho, feasible model rho) /\
  forall bound : Q, exists rho,
    feasible model rho /\ better (sense model) (objective_at model rho) bound.

Definition lp_optimum (model : LpProblem) (rho : Valuation) : Prop :=
  feasible model rho /\
  forall rho', feasible model rho' ->
    ~ better (sense model) (objective_at model rho') (objective_at model rho).

(** A status tells the truth about a model. *)
Definition status_agrees (model : LpProblem) (st : LpStatusCode) : Prop :=
  (st = LpStatusUnbounded <-> lp_unbounded model) /\
  (st = LpStatusOptimal <-> exists rho, lp_optimum model rho) /\
  (st = LpStatusInfeasible <-> lp_infeasible model).

(** A solver is exact on a class of models when it returns on each of
    them, with the status that tells the truth. *)
Definition exact_on (P : LpProblem -> Prop) (solver : Solver) : Prop :=
  forall model, P model ->
    exists st vals, solver model = inr (st, vals) /\ status_agrees model st.

(** The class met by [build_model] without constraints and with
    [nonneg]: maximisation, no constraint, every variable bounded below by
    zero and not bounded above. *)
Definition nonneg_var (var : LpVariable) : bool :=
  match lowBound var, upBound var with
  | Some l, None => Qeq_bool l 0
  | _, _ => false
  end.

Definition free_maximisation (model : LpProblem) : bool :=
  match sense model, constraints model with
  | LpMaximize, [] => forallb (fun t => nonneg_var (snd t)) (objective model)
  | _, _ => false
  end.

(** The valuation that gives [k] to the variable named [n] and 0 to the
    others. *)
Definition point (n : string) (k : Q) : Valuation :=
  fun m => if String.eqb m n then k else 0.

(** The net coefficient of the variable named [n] in an expression. *)
Definition net (n : string) (e : LpAffineExpression) : Q :=
  eval (point n 1) e.

(** The terms of an expression on other variables than [n]. *)
Definition without (n : string) (e : LpAffineExpression) : LpAffineExpression :=
  List.filter (fun t => negb (String.eqb (name (snd t)) n)) e.

(** A solver for that class, by inspection of the net coefficients; it
    answers [LpStatusUndefined] on every other model. *)
Definition reference_solver : Solver := fun model =>
  if free_maximisation model then
    if existsb (fun t => gt (net (name (snd t)) (objective model)) 0) (objective model)
    then ret (LpStatusUnbounded, ∅)
    else ret (LpStatusOptimal,
              list_to_map (map (fun t => (name (snd t), 0)) (objective model)))
  else ret (LpStatusUndefined, ∅).

(** A solver that reports one fixed status and assigns no value, and one
    that always fails. *)
Definition constant_solver (st : LpStatusCode) : Solver :=
  fun _ => ret (st, ∅).

Definition failing_solver : Solver :=
  fun _ => raise (PulpSolverError "solver failed").

(** ** src/pages/System_of_Equations.py: the figure *)

(** [go.Scatter(x=..., y=..., mode=..., name=...)]; the marker size of the
    intersection trace is left out. *)
Inductive Trace : Type :=
  | Scatter (x y : list Q) (mode : string) (trace_name : string).

(** Lines 141-175: the traces added to the figure, in order. *)
Definition figure (a1 b1 c1 a2 b2 c2 : Q) : result (list Trace) :=
  try! s := solve_system a1 b1 c1 a2 b2 c2 in
  let x_vals := x_vals s in
  try! l1 := line_points x_vals a1 b1 c1 in
  try! l2 := line_points x_vals a2 b2 c2 in
  let '(x1, y1, vertical1, _) := l1 in
  let '(x2, y2, vertical2, _) := l2 in
  let fig := [] in
  let fig :=
    if Nat.ltb 0 (length x1) then fig ++ [Scatter x1 y1 "lines" "Equation 1"]
    else fig in
  let fig :=
    if Nat.ltb 0 (length x2) then fig ++ [Scatter x2 y2 "lines" "Equation 2"]
    else fig in
  let fig :=
    match has_unique s, x_sol s, y_sol s with
    | true, Some x, Some y =>
        if isfinite x && isfinite y
        then fig ++ [Scatter [x] [y] "markers" "Intersection"]
        else fig
    | _, _, _ => fig
    end in
  ret fig.

Definition is_marker (t : Trace) : bool :=
  match t with Scatter _ _ mode _ => String.eqb mode "markers" end.

Definition is_line (n : string) (t : Trace) : bool :=
  match t with
  | Scatter _ _ mode trace_name => String.eqb mode "lines" && String.eqb trace_name n
  end.

(** ** src/Linear_Programming.py: [main], the form

    The values the widgets hold when the script runs.  The widgets are
    streamlit's; [str.strip] is Python's and is a parameter of the
    functions below. *)

Record Widgets : Type := mkWidgets {
  num_vars : nat;
  num_constraints : nat;
  sense_choice : string;
  nonneg_checked : bool;
  var_name_input : nat -> string;
  obj_coeff_input : nat -> Q;
  con_coeff_input : nat -> nat -> Q;
  relation_choice : nat -> string;
  rhs_input : nat -> Q
}.

Section Form.

Variable strip : string -> string.

(** Lines 80-89 *)
Definition form_var_names (w : Widgets) : list string :=
  map (fun i =>
         let name := var_name_input w i in
         if String.eqb (strip name) "" then "x" +:+ pretty (i + 1)%nat else name)
      (seq 0 (num_vars w)).

(** Lines 95-104 *)
Definition form_obj_coeffs (w : Widgets) : list Q :=
  map (fun iname : nat * string => obj_coeff_input w (fst iname))
      (enumerate (form_var_names w) 0).

(** Lines 114-146 *)
Definition form_constraints (w : Widgets) : list (list Q * string * Q) :=
  if Nat.ltb 0 (num_constraints w) then
    map (fun j =>
           let row_coeffs :=
             map (fun iname : nat * string => con_coeff_input w j (fst iname))
                 (enumerate (form_var_names w) 0) in
           let relation := relation_choice w j in
           let rhs := rhs_input w j in
           (row_coeffs, relation, rhs))
        (seq 0 (num_constraints w))
  else [].

(** Lines 157-191: nothing is solved until the button is pressed. *)
Definition main (solver : Solver) (w : Widgets) (solve_pressed : bool) : list Output :=
  if solve_pressed then
    main_solve solver (form_var_names w) (form_obj_coeffs w) (form_constraints w)
               (sense_choice w) (nonneg_checked w)
  else [].

End Form.

(** The model the page submits for the widgets' values. *)
Definition form_model (strip : string -> string) (w : Widgets) : LpProblem :=
  built_model (form_var_names strip w) (form_obj_coeffs strip w)
              (form_constraints strip w) (sense_choice w) (nonneg_checked w).

Definition is_error (o : Output) : bool :=
  match o with st_error _ => true | _ => false end.

(** Two optional numbers are the same value. *)
Definition opt_eq (o o' : option Q) : Prop :=
  match o, o' with
  | Some x, Some x' => x == x'
  | None, None => True
  | _, _ => False
  end.

(** [(x, y)] solves the system. *)
Definition solves (a1 b1 c1 a2 b2 c2 x y : Q) : Prop :=
  a1 * x + b1 * y == c1 /\ a2 * x + b2 * y == c2.

(** * Properties *)

(** ** Comparisons and divisions *)

Lemma gt_spec (x y : Q) : gt x y = true <-> y < x.
Proof.
  unfold gt. rewrite negb_true_iff. split.
  - intros H. apply Qnot_le_lt. intros Hle.
    apply Qle_bool_iff in Hle. congruence.
  - intros H. destruct (Qle_bool x y) eqn:E; [|reflexivity].
    apply Qle_bool_iff in E. exfalso. apply (Qlt_not_le _ _ H E).
Qed.

Lemma gt_false (x y : Q) : gt x y = false <-> ~ y < x.
Proof.
  rewrite <- gt_spec. destruct (gt x y); split; congruence.
Qed.

Lemma eps_pos : 0 < eps.
Proof. reflexivity. Qed.

Lemma beyond_eps_nonzero (d : Q) : eps < Qabs d -> ~ d == 0.
Proof.
  intros H E. rewrite E in H. apply (Qlt_not_le _ _ H). discriminate.
Qed.

Lemma py_div_nonzero (x y : Q) : ~ y == 0 -> py_div x y = inr (x / y).
Proof.
  intros H. unfold py_div. destruct (Qeq_bool y 0) eqn:E; [|reflexivity].
  apply Qeq_bool_iff in E. contradiction.
Qed.

Lemma py_div_guarded (x y : Q) : eps < Qabs y -> py_div x y = inr (x / y).
Proof. intros H. apply py_div_nonzero, beyond_eps_nonzero, H. Qed.

Lemma guarded_div_guarded (x y : Q) :
  eps < Qabs y -> guarded_div eps x y = inr (x / y).
Proof.
  intros H. unfold guarded_div. apply gt_spec in H. rewrite H. reflexivity.
Qed.

Lemma mapM_total {A B} (f : A -> result B) (g : A -> B) (l : list A) :
  (forall a, a ∈ l -> f a = inr (g a)) -> mapM f l = inr (map g l).
Proof.
  induction l as [|a l IH]; intros Hf; [reflexivity|].
  cbn. rewrite (Hf a) by (left). cbn.
  rewrite IH by (intros a' Ha'; apply Hf; right; exact Ha'). reflexivity.
Qed.

(** ** [np.linspace] and [np.full_like] *)

Lemma length_linspace_raw (start stop : Q) (num : nat) :
  length (linspace_raw start stop num) = num.
Proof. unfold linspace_raw. rewrite length_map, length_seq. reflexivity. Qed.

Lemma length_linspace (start stop : Q) (num : nat) :
  length (linspace start stop num) = num.
Proof.
  destruct num as [|[|k]]; [reflexivity..|].
  unfold linspace. rewrite length_app, length_take, length_linspace_raw.
  cbn [length]. lia.
Qed.

Lemma inject_nat_pos (k : nat) : ~ inject_Z (Z.of_nat (S k)) == 0.
Proof.
  intros E. unfold Qeq in E. cbn [Qnum Qden inject_Z] in E. lia.
Qed.

(** The samples are evenly spaced from [start] to [stop]. *)
Lemma linspace_lookup (start stop : Q) (num i : nat) :
  (2 <= num)%nat -> (i < num)%nat ->
  exists y, linspace start stop num !! i = Some y /\
            y == start + inject_Z (Z.of_nat i) * ((stop - start) / inject_Z (Z.of_nat (num - 1))).
Proof.
  intros Hnum Hi. destruct num as [|[|k]]; [lia..|].
  unfold linspace.
  destruct (decide (i < S k)%nat) as [Hlt|Hge].
  - exists (inject_Z (Z.of_nat i) * linspace_step start stop (S (S k)) + start).
    split.
    + rewrite lookup_app_l by (rewrite length_take, length_linspace_raw; lia).
      rewrite lookup_take_lt by lia. unfold linspace_raw.
      rewrite list_lookup_fmap, lookup_seq_lt by lia. reflexivity.
    + unfold linspace_step. ring.
  - assert (i = S k) as -> by lia.
    exists stop. split.
    + rewrite lookup_app_r by (rewrite length_take, length_linspace_raw; lia).
      rewrite length_take, length_linspace_raw.
      replace (S k - S k `min` S (S k))%nat with 0%nat by lia. reflexivity.
    + replace (S (S k) - 1)%nat with (S k) by lia.
      field. apply inject_nat_pos.
Qed.

Lemma full_like_repeat (arr : list Q) (v : Q) :
  full_like arr v = repeat v (length arr).
Proof.
  unfold full_like. induction arr as [|a arr IH]; [reflexivity|].
  cbn. rewrite IH. reflexivity.
Qed.

Lemma within_spec (lo hi y : Q) : within lo hi y = true <-> lo <= y /\ y <= hi.
Proof.
  unfold within. rewrite andb_true_iff, !Qle_bool_iff. reflexivity.
Qed.

Lemma y_domain_within :
  Forall (fun y => -(10) <= y /\ y <= 10) (linspace (-(10)) 10 400).
Proof.
  apply Forall_forall. intros y Hy. apply within_spec.
  assert (forallb (within (-(10)) 10) (linspace (-(10)) 10 400) = true) as H
    by (vm_compute; reflexivity).
  rewrite forallb_forall in H. apply H. apply list_elem_of_In. exact Hy.
Qed.

(** ** The 2x2 solver *)

Lemma solve_system_unique (a1 b1 c1 a2 b2 c2 : Q) :
  eps < Qabs (a1 * b2 - a2 * b1) ->
  solve_system a1 b1 c1 a2 b2 c2 =
    inr (mkSolution (a1 * b2 - a2 * b1) true
           (Some ((c1 * b2 - c2 * b1) / (a1 * b2 - a2 * b1)))
           (Some ((a1 * c2 - a2 * c1) / (a1 * b2 - a2 * b1)))).
Proof.
  intros H. unfold solve_system.
  rewrite (proj2 (gt_spec _ _) H).
  rewrite !py_div_guarded by exact H. reflexivity.
Qed.

Lemma solve_system_degenerate (a1 b1 c1 a2 b2 c2 : Q) :
  ~ eps < Qabs (a1 * b2 - a2 * b1) ->
  solve_system a1 b1 c1 a2 b2 c2 =
    inr (mkSolution (a1 * b2 - a2 * b1) false None None).
Proof.
  intros H. unfold solve_system.
  rewrite (proj2 (gt_false _ _) H). reflexivity.
Qed.

(** C2: the solver returns on every six coefficients and reports a unique
    solution exactly when the absolute value of the determinant
    [a1*b2 - a2*b1] exceeds 1e-9; the parallel system (1,1,5, 1,1,7) and
    the coincident system (1,1,5, 2,2,10) both end in the same state,
    [has_unique = False] with no solution recorded. *)
Theorem has_unique_iff_det_beyond_eps :
  (forall a1 b1 c1 a2 b2 c2 : Q,
     exists s, solve_system a1 b1 c1 a2 b2 c2 = inr s /\
       (has_unique s = true <-> 1 # 1000000000 < Qabs (a1 * b2 - a2 * b1))) /\
  solve_system 1 1 5 1 1 7 = inr (mkSolution 0 false None None) /\
  solve_system 1 1 5 2 2 10 = inr (mkSolution 0 false None None).
Proof.
  split; [|split; reflexivity].
  intros a1 b1 c1 a2 b2 c2.
  destruct (Qlt_le_dec eps (Qabs (a1 * b2 - a2 * b1))) as [Hgt|Hle].
  - eexists. split; [apply solve_system_unique, Hgt|].
    cbn. split; intros _; [exact Hgt|reflexivity].
  - apply Qle_not_lt in Hle.
    eexists. split; [apply solve_system_degenerate, Hle|].
    cbn. split; [discriminate|]. intros H. contradiction.
Qed.

(** C3: when the absolute value of the determinant exceeds 1e-9 the solver
    returns Cramer's quotients, [x = (c1*b2 - c2*b1) / det] and
    [y = (a1*c2 - a2*c1) / det]; on (1,1,10, 2,-1,0) these are 10/3 and
    20/3. *)
Theorem cramer_quotients :
  (forall a1 b1 c1 a2 b2 c2 : Q,
     eps < Qabs (a1 * b2 - a2 * b1) ->
     exists s x y,
       solve_system a1 b1 c1 a2 b2 c2 = inr s /\
       has_unique s = true /\ x_sol s = Some x /\ y_sol s = Some y /\
       det s = a1 * b2 - a2 * b1 /\
       x = (c1 * b2 - c2 * b1) / det s /\
       y = (a1 * c2 - a2 * c1) / det s) /\
  (exists x y,
     solve_system 1 1 10 2 (-(1)) 0 = inr (mkSolution (-(3)) true (Some x) (Some y)) /\
     x == 10 # 3 /\ y == 20 # 3).
Proof.
  split.
  - intros a1 b1 c1 a2 b2 c2 H.
    eexists _, _, _. split; [apply solve_system_unique, H|].
    cbn. repeat split; reflexivity.
  - exists (10 # 3), (20 # 3). repeat split; reflexivity.
Qed.

Lemma cramer_quotients_witness :
  eps < Qabs (1 * (-(1)) - 2 * 1) /\
  exists s x y,
    solve_system 1 1 10 2 (-(1)) 0 = inr s /\
    has_unique s = true /\ x_sol s = Some x /\ y_sol s = Some y /\
    det s = 1 * (-(1)) - 2 * 1 /\
    x = (10 * (-(1)) - 0 * 1) / det s /\
    y = (1 * 0 - 2 * 10) / det s.
Proof.
  split; [reflexivity|].
  apply (proj1 cramer_quotients 1 1 10 2 (-(1)) 0). reflexivity.
Defined.

(** C9: whenever the solver reports a unique solution, the pair it
    returns satisfies both equations. *)
Theorem solution_satisfies_system (a1 b1 c1 a2 b2 c2 : Q) (s : Solution) (x y : Q) :
  solve_system a1 b1 c1 a2 b2 c2 = inr s ->
  has_unique s = true -> x_sol s = Some x -> y_sol s = Some y ->
  a1 * x + b1 * y == c1 /\ a2 * x + b2 * y == c2.
Proof.
  intros Hs Hu Hx Hy.
  destruct (Qlt_le_dec eps (Qabs (a1 * b2 - a2 * b1))) as [Hgt|Hle].
  - rewrite solve_system_unique in Hs by exact Hgt.
    injection Hs as <-. cbn in Hx, Hy.
    injection Hx as <-. injection Hy as <-.
    pose proof (beyond_eps_nonzero _ Hgt) as Hdet.
    split; field; exact Hdet.
  - apply Qle_not_lt in Hle.
    rewrite solve_system_degenerate in Hs by exact Hle.
    injection Hs as <-. discriminate Hu.
Qed.

Lemma solution_satisfies_system_witness :
  1 * (10 # 3) + 1 * (20 # 3) == 10 /\ 2 * (10 # 3) + (-(1)) * (20 # 3) == 0.
Proof.
  apply (solution_satisfies_system 1 1 10 2 (-(1)) 0
           (mkSolution (-(3)) true (Some (10 # 3)) (Some (20 # 3))));
    reflexivity.
Defined.

(** ** [line_points] *)

Section LinePoints.

Variable divide : Q -> Q -> result Q.
Hypothesis divide_guarded :
  forall x y, eps < Qabs y -> divide x y = inr (x / y).

Lemma line_points_with_sloped (xs : list Q) (a b c : Q) :
  eps < Qabs b ->
  line_points_with divide xs a b c =
    inr (xs, map (fun x => (c - a * x) / b) xs, false, None).
Proof.
  intros Hb. unfold line_points_with.
  rewrite (proj2 (gt_spec _ _) Hb).
  rewrite (mapM_total _ (fun x => (c - a * x) / b))
    by (intros x _; apply divide_guarded, Hb).
  reflexivity.
Qed.

Lemma line_points_with_vertical (xs : list Q) (a b c : Q) :
  ~ eps < Qabs b -> eps < Qabs a ->
  line_points_with divide xs a b c =
    inr (full_like (linspace (-(10)) 10 400) (c / a),
         linspace (-(10)) 10 400, true, Some (c / a)).
Proof.
  intros Hb Ha. unfold line_points_with.
  rewrite (proj2 (gt_false _ _) Hb), (proj2 (gt_spec _ _) Ha).
  rewrite divide_guarded by exact Ha. reflexivity.
Qed.

Lemma line_points_with_degenerate (xs : list Q) (a b c : Q) :
  ~ eps < Qabs b -> ~ eps < Qabs a ->
  line_points_with divide xs a b c = inr ([], [], false, None).
Proof.
  intros Hb Ha. unfold line_points_with.
  rewrite (proj2 (gt_false _ _) Hb), (proj2 (gt_false _ _) Ha).
  reflexivity.
Qed.

End LinePoints.

Lemma beyond_eps_dec (d : Q) : {eps < Qabs d} + {~ eps < Qabs d}.
Proof.
  destruct (Qlt_le_dec eps (Qabs d)) as [H|H]; [left; exact H|].
  right. apply Qle_not_lt, H.
Qed.

(** C4: the three branches of [line_points].  With [|b| > 1e-9] it returns
    the sampled x-domain, [y = (c - a*x)/b] at each sample and
    [is_vertical = False]; else with [|a| > 1e-9] it returns 400 evenly
    spaced y-samples from -10 to 10, x held at [c/a] on each of them,
    [is_vertical = True] and [vertical_x = c/a]; else it returns empty
    sequences. *)
Theorem line_points_branches (xs : list Q) (a b c : Q) :
  (eps < Qabs b ->
     line_points xs a b c =
       inr (xs, map (fun x => (c - a * x) / b) xs, false, None)) /\
  (~ eps < Qabs b -> eps < Qabs a ->
     exists ys,
       line_points xs a b c = inr (repeat (c / a) 400, ys, true, Some (c / a)) /\
       length ys = 400%nat /\
       Forall (fun y => -(10) <= y /\ y <= 10) ys /\
       forall i, (i < 400)%nat ->
         exists y, ys !! i = Some y /\
                   y == -(10) + inject_Z (Z.of_nat i) * (20 # 399)) /\
  (~ eps < Qabs b -> ~ eps < Qabs a ->
     line_points xs a b c = inr ([], [], false, None)).
Proof.
  split; [|split].
  - apply line_points_with_sloped. exact py_div_guarded.
  - intros Hb Ha. exists (linspace (-(10)) 10 400).
    split; [|split; [|split]].
    + unfold line_points.
      rewrite (line_points_with_vertical py_div py_div_guarded) by assumption.
      rewrite full_like_repeat, length_linspace. reflexivity.
    + apply length_linspace.
    + exact y_domain_within.
    + intros i Hi.
      destruct (linspace_lookup (-(10)) 10 400 i) as (y & Hy & Ey); [lia..|].
      exists y. split; [exact Hy|]. rewrite Ey. reflexivity.
  - apply line_points_with_degenerate.
Qed.

Lemma line_points_branches_witness :
  line_points [-(10); 0; 10] 0 1 5 = inr ([-(10); 0; 10], [5; 5; 5], false, None) /\
  (exists ys, line_points [-(10); 0; 10] 1 0 3 =
                inr (repeat (3 / 1) 400, ys, true, Some (3 / 1)) /\
              length ys = 400%nat) /\
  line_points [-(10); 0; 10] 0 0 7 = inr ([], [], false, None).
Proof.
  split; [|split].
  - apply (proj1 (line_points_branches [-(10); 0; 10] 0 1 5)). reflexivity.
  - destruct (proj1 (proj2 (line_points_branches [-(10); 0; 10] 1 0 3)))
      as (ys & Hys & Hlen & _).
    + intros H. discriminate H.
    + reflexivity.
    + exists ys. split; assumption.
  - apply (proj2 (proj2 (line_points_branches [-(10); 0; 10] 0 0 7)));
      intros H; discriminate H.
Defined.

(** C6: [line_points] returns on every triple, and it returns the same
    result when every division refuses a divisor whose absolute value
    does not exceed 1e-9: no division is reached outside its guard. *)
Theorem line_points_total_and_guarded (xs : list Q) (a b c : Q) :
  exists r,
    line_points xs a b c = inr r /\
    line_points_with (guarded_div eps) xs a b c = inr r.
Proof.
  unfold line_points.
  destruct (beyond_eps_dec b) as [Hb|Hb]; [|destruct (beyond_eps_dec a) as [Ha|Ha]].
  - eexists. split.
    + apply line_points_with_sloped; [exact py_div_guarded|exact Hb].
    + apply line_points_with_sloped; [exact guarded_div_guarded|exact Hb].
  - eexists. split.
    + apply line_points_with_vertical; [exact py_div_guarded|exact Hb|exact Ha].
    + apply line_points_with_vertical; [exact guarded_div_guarded|exact Hb|exact Ha].
  - eexists. split; apply line_points_with_degenerate; assumption.
Qed.

Lemma length_x_vals (s : Solution) : length (x_vals s) = 400%nat.
Proof.
  unfold x_vals. destruct (x_range s) as [x_min x_max].
  apply length_linspace.
Qed.

(** C10: on the script's x-domain, [line_points] returns x and y sequences
    of equal length: 400 each in the non-vertical and vertical branches,
    empty in the degenerate branch. *)
Theorem line_points_lengths (s : Solution) (a b c : Q) :
  exists xs ys vertical x_vert,
    line_points (x_vals s) a b c = inr (xs, ys, vertical, x_vert) /\
    length xs = length ys /\
    length xs = if gt (Qabs b) eps || gt (Qabs a) eps then 400%nat else 0%nat.
Proof.
  unfold line_points.
  destruct (beyond_eps_dec b) as [Hb|Hb]; [|destruct (beyond_eps_dec a) as [Ha|Ha]].
  - rewrite (line_points_with_sloped py_div py_div_guarded) by exact Hb.
    eexists _, _, _, _. split; [reflexivity|].
    rewrite length_map, length_x_vals, (proj2 (gt_spec _ _) Hb). split; reflexivity.
  - rewrite (line_points_with_vertical py_div py_div_guarded) by assumption.
    eexists _, _, _, _. split; [reflexivity|].
    unfold full_like. rewrite length_map, length_linspace.
    rewrite (proj2 (gt_false _ _) Hb), (proj2 (gt_spec _ _) Ha). split; reflexivity.
  - rewrite (line_points_with_degenerate py_div) by assumption.
    eexists _, _, _, _. split; [reflexivity|].
    rewrite (proj2 (gt_false _ _) Hb), (proj2 (gt_false _ _) Ha). split; reflexivity.
Qed.

(** ** [build_model]: the model handed to the solver *)

Lemma foldl_insert_lookup (lb : option Q) (var_names : list string)
    (acc : gmap string LpVariable) (n : string) :
  foldl (fun (variables : gmap string LpVariable) name =>
           <[name := new_LpVariable name lb]> variables) acc var_names !! n =
  if decide (n ∈ var_names) then Some (new_LpVariable n lb) else acc !! n.
Proof.
  revert acc. induction var_names as [|m l IH]; intros acc; cbn [foldl].
  - rewrite decide_False by apply not_elem_of_nil. reflexivity.
  - rewrite IH. destruct (decide (n ∈ l)) as [Hl|Hl].
    + rewrite decide_True by (right; exact Hl). reflexivity.
    + destruct (decide (n = m)) as [->|Hne].
      * rewrite decide_True by left. apply lookup_insert_eq.
      * rewrite decide_False by (rewrite elem_of_cons; tauto).
        apply lookup_insert_ne. congruence.
Qed.

Lemma built_variables_lookup (var_names : list string) (nonneg : bool) (n : string) :
  built_variables var_names nonneg !! n =
  if decide (n ∈ var_names) then Some (new_LpVariable n (lower_bound nonneg)) else None.
Proof.
  unfold built_variables. rewrite foldl_insert_lookup, lookup_empty. reflexivity.
Qed.

Lemma zip_snd_elem {A B} (l : list A) (k : list B) (a : A) (b : B) :
  (a, b) ∈ zip l k -> b ∈ k.
Proof.
  revert k. induction l as [|a' l IH]; intros [|b' k] H; cbn in H;
    try (apply elem_of_nil in H; contradiction).
  apply elem_of_cons in H as [H|H].
  - injection H as _ ->. left.
  - right. apply IH, H.
Qed.

Lemma lpSum_terms_built (var_names names : list string) (nonneg : bool) (coeffs : list Q) :
  names ⊆ var_names ->
  lpSum_terms (built_variables var_names nonneg) coeffs names =
    inr (paired_terms nonneg coeffs names).
Proof.
  intros Hsub. unfold lpSum_terms, paired_terms.
  apply mapM_total. intros [c n] Hcn. cbn [fst snd].
  unfold getitem. rewrite built_variables_lookup.
  rewrite decide_True by (apply Hsub; eapply zip_snd_elem; exact Hcn).
  reflexivity.
Qed.

Lemma foldM_total {A B} (f : B -> A -> result B) (g : B -> A -> B) (b : B) (l : list A) :
  (forall b a, f b a = inr (g b a)) -> foldM f b l = inr (foldl g b l).
Proof.
  intros Hf. revert b. induction l as [|a l IH]; intros b; [reflexivity|].
  cbn. rewrite Hf. cbn. apply IH.
Qed.

Lemma foldl_add_constraint {A} (mk : A -> LpConstraint) (model : LpProblem) (l : list A) :
  foldl (fun m a => add_constraint m (mk a)) model l =
  mkLpProblem (pname model) (sense model) (objective model)
              (constraints model ++ map mk l) (status model) (varValue model).
Proof.
  revert model. induction l as [|a l IH]; intros model; cbn [foldl map].
  - rewrite app_nil_r. destruct model; reflexivity.
  - rewrite IH. unfold add_constraint. cbn.
    rewrite <- app_assoc. reflexivity.
Qed.

(** [build_model] performs no check of its own: it builds [built_model],
    calls the solver on it once, and fails only if the solver does. *)
Lemma build_model_unfold (solver : Solver)
    (var_names : list string) (obj_coeffs : list Q)
    (constraints : list (list Q * string * Q)) (sense : string) (nonneg : bool) :
  build_model solver var_names obj_coeffs constraints sense nonneg =
  match solver (built_model var_names obj_coeffs constraints sense nonneg) with
  | inl e => inl e
  | inr (st, vals) =>
      inr (mkLpProblem "User_Defined_LP"
             (if String.eqb sense "Maximize" then LpMaximize else LpMinimize)
             (paired_terms nonneg obj_coeffs var_names)
             (map (built_constraint nonneg var_names) (enumerate constraints 1))
             st vals,
           built_variables var_names nonneg)
  end.
Proof.
  unfold build_model.
  change (foldl _ ∅ var_names) with (built_variables var_names nonneg).
  rewrite lpSum_terms_built by reflexivity. cbn [bind].
  rewrite (foldM_total _
    (fun m ic => add_constraint m (built_constraint nonneg var_names ic))).
  - cbn [bind]. rewrite foldl_add_constraint. cbn.
    unfold solve, built_model.
    destruct (solver _) as [e|[st vals]]; reflexivity.
  - intros m [idx [[row_coeffs relation] rhs]].
    rewrite lpSum_terms_built by reflexivity. cbn [bind].
    unfold built_constraint, relation_sense.
    destruct (String.eqb relation "<="); [reflexivity|].
    destruct (String.eqb relation ">="); reflexivity.
Qed.

Lemma map_fmap {A B} (f : A -> B) (l : list A) : map f l = f <$> l.
Proof. induction l as [|a l IH]; [reflexivity|]. cbn. rewrite IH. reflexivity. Qed.

Lemma paired_terms_vars (nonneg : bool) (coeffs : list Q) (names : list string) :
  Forall (fun t => exists n, n ∈ names /\ snd t = new_LpVariable n (lower_bound nonneg))
         (paired_terms nonneg coeffs names).
Proof.
  unfold paired_terms. apply Forall_forall. intros t Ht.
  rewrite map_fmap in Ht. apply list_elem_of_fmap in Ht as ([c n] & -> & Hcn).
  exists n. split; [eapply zip_snd_elem; exact Hcn|reflexivity].
Qed.

Lemma length_paired_terms (nonneg : bool) (coeffs : list Q) (names : list string) :
  length (paired_terms nonneg coeffs names) = (length coeffs `min` length names)%nat.
Proof. unfold paired_terms. rewrite length_map. apply length_zip_with. Qed.

Lemma paired_terms_lookup (nonneg : bool) (coeffs : list Q) (names : list string)
    (i : nat) (c : Q) (n : string) :
  coeffs !! i = Some c -> names !! i = Some n ->
  paired_terms nonneg coeffs names !! i = Some (c, new_LpVariable n (lower_bound nonneg)).
Proof.
  intros Hc Hn. unfold paired_terms.
  rewrite map_fmap, list_lookup_fmap, lookup_zip_with, Hc. cbn. rewrite Hn. reflexivity.
Qed.

Lemma relation_sense_cases (relation : string) :
  (relation = "<=" /\ relation_sense relation = LpConstraintLE) \/
  (relation = ">=" /\ relation_sense relation = LpConstraintGE) \/
  (relation <> "<=" /\ relation <> ">=" /\ relation_sense relation = LpConstraintEQ).
Proof.
  unfold relation_sense.
  destruct (String.eqb_spec relation "<=") as [->|H1]; [left; split; reflexivity|].
  destruct (String.eqb_spec relation ">=") as [->|H2];
    [right; left; split; reflexivity|].
  right; right. repeat split; assumption.
Qed.

(** C1, as the code has it: [build_model] validates nothing.  On every
    input it pairs coefficients and names position by position up to the
    shorter list, in the objective and in every constraint row; it reads
    every relation token other than "<=" and ">=" as equality; it calls
    the solver on the model so built and raises exactly when the solver
    does.  When a row is as long as the list of names nothing is dropped. *)
Theorem build_model_validates_nothing (solver : Solver)
    (var_names : list string) (obj_coeffs : list Q)
    (rows : list (list Q * string * Q)) (sense_name : string) (nonneg : bool) :
  let submitted := built_model var_names obj_coeffs rows sense_name nonneg in
  (forall e, build_model solver var_names obj_coeffs rows sense_name nonneg = inl e <->
             solver submitted = inl e) /\
  (forall st vals, solver submitted = inr (st, vals) ->
     exists model,
       build_model solver var_names obj_coeffs rows sense_name nonneg =
         inr (model, built_variables var_names nonneg) /\
       objective model = objective submitted /\
       constraints model = constraints submitted /\
       status model = st) /\
  length (objective submitted) = (length obj_coeffs `min` length var_names)%nat /\
  (forall i row relation bound,
     rows !! i = Some (row, relation, bound) ->
     exists c,
       constraints submitted !! i = Some c /\
       cname c = "constr_" +:+ pretty (S i) /\
       length (expr c) = (length row `min` length var_names)%nat /\
       rhs c = bound /\
       csense c = relation_sense relation /\
       (relation <> "<=" -> relation <> ">=" -> csense c = LpConstraintEQ)) /\
  (forall row i c n,
     length row = length var_names -> row !! i = Some c -> var_names !! i = Some n ->
     paired_terms nonneg row var_names !! i =
       Some (c, new_LpVariable n (lower_bound nonneg))).
Proof.
  cbn zeta. rewrite build_model_unfold.
  split; [|split; [|split; [|split]]].
  - intros e. destruct (solver _) as [e'|[st vals]]; [|split; discriminate].
    split; intros [= ->]; reflexivity.
  - intros st vals ->. eexists. split; [reflexivity|].
    cbn. repeat split; reflexivity.
  - cbn. apply length_paired_terms.
  - intros i row relation bound Hi. cbn [constraints built_model].
    eexists. split.
    + rewrite map_fmap, list_lookup_fmap. unfold enumerate.
      rewrite lookup_zip_with, lookup_seq_lt
        by (apply lookup_lt_Some in Hi; exact Hi).
      cbn. rewrite Hi. cbn. reflexivity.
    + cbn. repeat split; try reflexivity.
      * apply length_paired_terms.
      * intros H1 H2.
        destruct (relation_sense_cases relation) as [[E _]|[[E _]|(_ & _ & E)]];
          [contradiction..|exact E].
  - intros row i c n _. apply paired_terms_lookup.
Qed.

Lemma build_model_validates_nothing_witness :
  exists model,
    build_model (constant_solver LpStatusOptimal)
                ["x"; "y"] [3] [([1; 1; 1], "<", 4)] "Maximize" true =
      inr (model, built_variables ["x"; "y"] true) /\
    objective model = [(3, new_LpVariable "x" (Some 0))] /\
    constraints model =
      [mkLpConstraint "constr_1"
         [(1, new_LpVariable "x" (Some 0)); (1, new_LpVariable "y" (Some 0))]
         LpConstraintEQ 4] /\
    status model = LpStatusOptimal.
Proof.
  pose proof (build_model_validates_nothing (constant_solver LpStatusOptimal)
                ["x"; "y"] [3] [([1; 1; 1], "<", 4)] "Maximize" true) as H.
  cbn zeta in H. destruct H as (_ & H & _).
  apply (H LpStatusOptimal ∅). reflexivity.
Defined.

(** An input that is ill-formed in all three ways is accepted: the
    objective loses the variable [y], the row loses its third coefficient,
    the token "<" becomes an equality, and the solver is called; the only
    failure is the solver's own. *)
Lemma build_model_accepts_ill_formed_input :
  ill_formed ["x"; "y"] [3] [([1; 1; 1], "<", 4)] /\
  build_model (constant_solver LpStatusOptimal)
              ["x"; "y"] [3] [([1; 1; 1], "<", 4)] "Maximize" true =
    inr (mkLpProblem "User_Defined_LP" LpMaximize
           [(3, new_LpVariable "x" (Some 0))]
           [mkLpConstraint "constr_1"
              [(1, new_LpVariable "x" (Some 0)); (1, new_LpVariable "y" (Some 0))]
              LpConstraintEQ 4]
           LpStatusOptimal ∅,
         built_variables ["x"; "y"] true) /\
  build_model failing_solver
              ["x"; "y"] [3] [([1; 1; 1], "<", 4)] "Maximize" true =
    inl (PulpSolverError "solver failed") /\
  ~ (forall solver var_names obj_coeffs rows sense_name nonneg,
       ill_formed var_names obj_coeffs rows ->
       exists e, build_model solver var_names obj_coeffs rows sense_name nonneg = inl e).
Proof.
  assert (ill_formed ["x"; "y"] [3] [([1; 1; 1], "<", 4)]) as Hill
    by (left; cbn; lia).
  split; [exact Hill|].
  split; [vm_compute; reflexivity|].
  split; [vm_compute; reflexivity|].
  intros Hclaim.
  destruct (Hclaim (constant_solver LpStatusOptimal) _ _ _ "Maximize" true Hill)
    as [e He].
  rewrite build_model_unfold in He. discriminate He.
Qed.

Lemma lp_variables_built (var_names : list string) (obj_coeffs : list Q)
    (rows : list (list Q * string * Q)) (sense_name : string) (nonneg : bool)
    (st : LpStatusCode) (vals : gmap string Q) :
  Forall (fun v => exists n, n ∈ var_names /\ v = new_LpVariable n (lower_bound nonneg))
    (lp_variables
       (mkLpProblem "User_Defined_LP"
          (if String.eqb sense_name "Maximize" then LpMaximize else LpMinimize)
          (paired_terms nonneg obj_coeffs var_names)
          (map (built_constraint nonneg var_names) (enumerate rows 1))
          st vals)).
Proof.
  assert (forall coeffs,
    Forall (fun v => exists n, n ∈ var_names /\ v = new_LpVariable n (lower_bound nonneg))
           (map snd (paired_terms nonneg coeffs var_names))) as Hterms.
  { intros coeffs. rewrite Forall_map.
    eapply Forall_impl; [apply paired_terms_vars|]. intros t H. exact H. }
  unfold lp_variables. cbn [objective constraints].
  apply Forall_app. split; [apply Hterms|].
  apply Forall_forall. intros v Hv.
  apply list_elem_of_In, in_flat_map in Hv as (c & Hc & Hv).
  apply in_map_iff in Hc as ([idx [[row relation] bound]] & <- & _).
  cbn [built_constraint expr] in Hv.
  pose proof (Hterms row) as Hrow. rewrite Forall_forall in Hrow.
  apply Hrow, list_elem_of_In, Hv.
Qed.

(** C7: every variable [build_model] creates, and every variable of the
    model it returns, has lower bound 0 when [nonneg] is true and none
    when it is false, and has no upper bound; there is one variable per
    name, whatever the sense and the constraints. *)
Theorem variables_bounded_below_only (solver : Solver)
    (var_names : list string) (obj_coeffs : list Q)
    (rows : list (list Q * string * Q)) (sense_name : string) (nonneg : bool)
    (model : LpProblem) (variables : gmap string LpVariable) :
  build_model solver var_names obj_coeffs rows sense_name nonneg = inr (model, variables) ->
  (forall n, n ∈ var_names <-> is_Some (variables !! n)) /\
  (forall n v, variables !! n = Some v ->
     name v = n /\
     lowBound v = (if nonneg then Some 0 else None) /\
     upBound v = None) /\
  Forall (fun v => lowBound v = (if nonneg then Some 0 else None) /\ upBound v = None)
         (lp_variables model).
Proof.
  rewrite build_model_unfold.
  destruct (solver _) as [e|[st vals]]; [discriminate|].
  intros [= <- <-]. split; [|split].
  - intros n. rewrite built_variables_lookup.
    destruct (decide (n ∈ var_names)) as [Hn|Hn].
    + split; [eauto|intros _; exact Hn].
    + split; [contradiction|]. intros [v Hv]. discriminate Hv.
  - intros n v. rewrite built_variables_lookup.
    destruct (decide (n ∈ var_names)); [|discriminate].
    intros [= <-]. repeat split; reflexivity.
  - eapply Forall_impl; [apply lp_variables_built|].
    intros v (n & _ & ->). split; reflexivity.
Qed.

Lemma variables_bounded_below_only_witness :
  Forall (fun v => lowBound v = Some 0 /\ upBound v = None)
    (lp_variables
       (mkLpProblem "User_Defined_LP" LpMaximize
          [(3, new_LpVariable "x" (Some 0)); (2, new_LpVariable "y" (Some 0))]
          [mkLpConstraint "constr_1"
             [(1, new_LpVariable "x" (Some 0)); (1, new_LpVariable "y" (Some 0))]
             LpConstraintLE 4]
          LpStatusOptimal ∅)).
Proof.
  apply (variables_bounded_below_only (constant_solver LpStatusOptimal)
           ["x"; "y"] [3; 2] [([1; 1], "<=", 4)] "Maximize" true
           _ (built_variables ["x"; "y"] true)).
  vm_compute. reflexivity.
Defined.

(** ** [main]: what is shown after a solve *)

Lemma LpStatus_optimal (st : LpStatusCode) :
  String.eqb (LpStatus st) "Optimal" = true <-> st = LpStatusOptimal.
Proof. destruct st; cbn; split; congruence. Qed.

(** C8: after a solve that returned, a status other than Optimal yields
    the warning and neither the table of variable values nor the objective
    value; the table and the objective value are shown exactly when the
    status is Optimal, and then without the warning. *)
Theorem non_optimal_status_warns (solver : Solver)
    (var_names : list string) (obj_coeffs : list Q)
    (rows : list (list Q * string * Q)) (sense_name : string) (nonneg : bool)
    (model : LpProblem) (variables : gmap string LpVariable) :
  build_model solver var_names obj_coeffs rows sense_name nonneg = inr (model, variables) ->
  let shown := main_solve solver var_names obj_coeffs rows sense_name nonneg in
  (status model <> LpStatusOptimal ->
     existsb is_warning shown = true /\
     existsb is_table shown = false /\
     existsb is_objective_value shown = false) /\
  (status model = LpStatusOptimal ->
     existsb is_warning shown = false /\
     st_table ((fun var => value_of_var model var) <$> variables) ∈ shown /\
     st_write_value (value_of_expr model (objective model)) ∈ shown) /\
  (existsb is_table shown = true <-> status model = LpStatusOptimal) /\
  (existsb is_objective_value shown = true <-> status model = LpStatusOptimal).
Proof.
  intros Hbuild. unfold main_solve. rewrite Hbuild. cbn zeta.
  unfold show_results.
  destruct (String.eqb (LpStatus (status model)) "Optimal") eqn:E.
  - apply LpStatus_optimal in E.
    split; [intros H; contradiction|].
    split; [intros _; split; [reflexivity|split]|split; cbn; tauto].
    + do 3 right. left.
    + do 5 right. left.
  - assert (status model <> LpStatusOptimal) as Hne
      by (intros H; apply LpStatus_optimal in H; congruence).
    split; [intros _; repeat split; reflexivity|].
    split; [intros H; contradiction|].
    split; cbn; split; (discriminate || contradiction).
Qed.

Lemma non_optimal_status_warns_witness :
  existsb is_warning
    (main_solve (constant_solver LpStatusUnbounded) ["x"] [1] [] "Maximize" true) = true /\
  existsb is_table
    (main_solve (constant_solver LpStatusUnbounded) ["x"] [1] [] "Maximize" true) = false /\
  existsb is_objective_value
    (main_solve (constant_solver LpStatusUnbounded) ["x"] [1] [] "Maximize" true) = false.
Proof.
  pose proof (non_optimal_status_warns (constant_solver LpStatusUnbounded)
                ["x"] [1] [] "Maximize" true
                (mkLpProblem "User_Defined_LP" LpMaximize
                   [(1, new_LpVariable "x" (Some 0))] [] LpStatusUnbounded ∅)
                (built_variables ["x"] true)) as H.
  cbn zeta in H. apply H; [vm_compute; reflexivity|discriminate].
Defined.

(** ** Linear programs without constraints *)

Lemma eval_ext (rho rho' : Valuation) (e : LpAffineExpression) :
  (forall m, rho m == rho' m) -> eval rho e == eval rho' e.
Proof.
  intros H. induction e as [|t e IH]; cbn; [reflexivity|].
  rewrite IH, (H (name (snd t))). reflexivity.
Qed.

Lemma eval_scale (k : Q) (rho : Valuation) (e : LpAffineExpression) :
  eval (fun m => k * rho m) e == k * eval rho e.
Proof.
  induction e as [|t e IH]; cbn; [ring|]. rewrite IH. ring.
Qed.

Lemma eval_origin (e : LpAffineExpression) : eval (fun _ => 0) e == 0.
Proof.
  induction e as [|t e IH]; cbn; [reflexivity|]. rewrite IH. ring.
Qed.

Lemma eval_null_coeffs (rho : Valuation) (e : LpAffineExpression) :
  (forall t, In t e -> fst t == 0) -> eval rho e == 0.
Proof.
  induction e as [|t e IH]; intros H; cbn; [reflexivity|].
  rewrite IH by (intros t' Ht'; apply H; right; exact Ht').
  rewrite (H t) by (left; reflexivity). ring.
Qed.

Lemma point_scale (n : string) (k : Q) (m : string) :
  point n k m == k * point n 1 m.
Proof. unfold point. destruct (String.eqb m n); ring. Qed.

Lemma eval_point (n : string) (k : Q) (e : LpAffineExpression) :
  eval (point n k) e == k * net n e.
Proof.
  unfold net. rewrite <- eval_scale. apply eval_ext. intros m. apply point_scale.
Qed.

Lemma point_nonneg (n : string) (k : Q) (m : string) : 0 <= k -> 0 <= point n k m.
Proof. intros Hk. unfold point. destruct (String.eqb m n); [exact Hk|discriminate]. Qed.

Lemma point_same (n : string) (k : Q) : point n k n = k.
Proof. unfold point. rewrite String.eqb_refl. reflexivity. Qed.

Lemma point_other (n : string) (k : Q) (m : string) : m <> n -> point n k m = 0.
Proof.
  intros H. unfold point. destruct (String.eqb_spec m n); [contradiction|reflexivity].
Qed.

(** An expression splits into its terms on [n] and the others. *)
Lemma eval_without (rho : Valuation) (n : string) (e : LpAffineExpression) :
  eval rho e == rho n * net n e + eval rho (without n e).
Proof.
  unfold net. induction e as [|t e IH]; [cbn; ring|].
  unfold without. cbn [eval List.filter]. fold (without n e). rewrite IH.
  destruct (String.eqb_spec (name (snd t)) n) as [E|Hne]; cbn [negb eval].
  - rewrite E, point_same. ring.
  - rewrite point_other by exact Hne. ring.
Qed.

Lemma net_without (m n : string) (e : LpAffineExpression) :
  m <> n -> net m (without n e) == net m e.
Proof.
  intros Hne. unfold net at 2. rewrite (eval_without (point m 1) n e).
  rewrite point_other by congruence.
  fold (net m (without n e)). ring.
Qed.

Lemma In_without (n : string) (e : LpAffineExpression) (t : Q * LpVariable) :
  In t (without n e) <-> In t e /\ name (snd t) <> n.
Proof.
  unfold without. rewrite filter_In, negb_true_iff.
  destruct (String.eqb_spec (name (snd t)) n); intuition congruence.
Qed.

Lemma length_without (n : string) (e : LpAffineExpression) :
  (length (without n e) <= length e)%nat.
Proof. apply filter_length_le. Qed.

(** With every net coefficient at most zero, no valuation in the positive
    orthant gives the expression a positive value. *)
Lemma eval_nonpos (rho : Valuation) (e : LpAffineExpression) :
  (forall t, In t e -> 0 <= rho (name (snd t))) ->
  (forall t, In t e -> net (name (snd t)) e <= 0) ->
  eval rho e <= 0.
Proof.
  remember (length e) as k eqn:Hk.
  assert (length e <= k)%nat as Hlen by lia. clear Hk.
  revert e Hlen. induction k as [|k IH]; intros e Hlen Hrho Hnet.
  - destruct e; [discriminate|cbn in Hlen; lia].
  - destruct e as [|t e]; [discriminate|].
    set (n := name (snd t)).
    rewrite (eval_without rho n (t :: e)).
    assert (eval rho (without n (t :: e)) <= 0) as Hrest.
    { apply IH.
      - unfold without. cbn [List.filter]. fold n.
        rewrite String.eqb_refl. cbn [negb].
        pose proof (length_without n e) as Hle. unfold without in Hle.
        cbn in Hlen. lia.
      - intros t' Ht'. apply In_without in Ht' as [Ht' _]. apply Hrho, Ht'.
      - intros t' Ht'. apply In_without in Ht' as [Ht' Hne].
        rewrite net_without by exact Hne. apply Hnet, Ht'. }
    assert (0 <= rho n) as Hn by (apply Hrho; left; reflexivity).
    assert (net n (t :: e) <= 0) as Hnn by (apply Hnet; left; reflexivity).
    assert (rho n * net n (t :: e) <= 0) as Hprod by nra.
    lra.
Qed.

Lemma nonneg_var_bounds (rho : Valuation) (var : LpVariable) :
  nonneg_var var = true -> (in_bounds rho var <-> 0 <= rho (name var)).
Proof.
  unfold nonneg_var, in_bounds.
  destruct (lowBound var) as [l|]; [|discriminate].
  destruct (upBound var) as [u|]; [discriminate|].
  intros E. apply Qeq_bool_iff in E. rewrite E. tauto.
Qed.

Lemma free_maximisation_inv (model : LpProblem) :
  free_maximisation model = true ->
  sense model = LpMaximize /\ constraints model = [] /\
  forall t, In t (objective model) -> nonneg_var (snd t) = true.
Proof.
  unfold free_maximisation.
  destruct (sense model); [discriminate|].
  destruct (constraints model); [|discriminate].
  intros H. rewrite forallb_forall in H. repeat split. exact H.
Qed.

Lemma free_maximisation_feasible (model : LpProblem) (rho : Valuation) :
  free_maximisation model = true ->
  (feasible model rho <->
   forall t, In t (objective model) -> 0 <= rho (name (snd t))).
Proof.
  intros Hclass.
  destruct (free_maximisation_inv model Hclass) as (_ & Hcons & Hvars).
  unfold feasible, lp_variables. rewrite Hcons. cbn [flat_map].
  rewrite app_nil_r, Forall_map, Forall_forall. split.
  - intros [H _] t Ht.
    apply (nonneg_var_bounds rho (snd t)); [apply Hvars, Ht|].
    apply H, list_elem_of_In, Ht.
  - intros H. split; [|constructor]. intros t Ht.
    apply list_elem_of_In in Ht.
    apply (nonneg_var_bounds rho (snd t)); [apply Hvars, Ht|apply H, Ht].
Qed.

(** A variable with a positive net coefficient drives the objective
    beyond every bound. *)
Lemma free_maximisation_unbounded (model : LpProblem) (t : Q * LpVariable) :
  free_maximisation model = true ->
  In t (objective model) -> 0 < net (name (snd t)) (objective model) ->
  lp_unbounded model.
Proof.
  intros Hclass Ht Hnet.
  destruct (free_maximisation_inv model Hclass) as (Hsense & _ & _).
  set (n := name (snd t)) in *.
  assert (forall k, 0 <= k -> feasible model (point n k)) as Hfeas.
  { intros k Hk. apply free_maximisation_feasible; [exact Hclass|].
    intros t' _. apply point_nonneg, Hk. }
  split.
  - exists (point n 0). apply Hfeas. discriminate.
  - intros bound.
    set (k := (Qabs bound + 1) / net n (objective model)).
    assert (0 <= Qabs bound) as Habs by apply Qabs_nonneg.
    assert (0 <= k) as Hk.
    { unfold k. apply Qle_shift_div_l; [exact Hnet|]. lra. }
    exists (point n k). split; [apply Hfeas, Hk|].
    rewrite Hsense. unfold better, objective_at.
    rewrite eval_point.
    assert (k * net n (objective model) == Qabs bound + 1) as ->.
    { unfold k. field. intros E. rewrite E in Hnet. discriminate Hnet. }
    pose proof (Qle_Qabs bound). lra.
Qed.

(** Without such a variable the origin is an optimum. *)
Lemma free_maximisation_optimum (model : LpProblem) :
  free_maximisation model = true ->
  (forall t, In t (objective model) -> net (name (snd t)) (objective model) <= 0) ->
  lp_optimum model (fun _ => 0).
Proof.
  intros Hclass Hnet.
  destruct (free_maximisation_inv model Hclass) as (Hsense & _ & _).
  split.
  - apply free_maximisation_feasible; [exact Hclass|]. intros t _. discriminate.
  - intros rho Hrho. rewrite Hsense. unfold better, objective_at.
    rewrite eval_origin. apply Qle_not_lt.
    apply eval_nonpos; [|exact Hnet].
    apply free_maximisation_feasible; assumption.
Qed.

Lemma unbounded_no_optimum (model : LpProblem) (rho : Valuation) :
  lp_unbounded model -> lp_optimum model rho -> False.
Proof.
  intros [_ Hunb] [_ Hopt].
  destruct (Hunb (objective_at model rho)) as (rho' & Hfeas & Hbetter).
  exact (Hopt rho' Hfeas Hbetter).
Qed.

Lemma unbounded_status_agrees (model : LpProblem) :
  lp_unbounded model -> status_agrees model LpStatusUnbounded.
Proof.
  intros Hunb. split; [|split].
  - tauto.
  - split; [discriminate|]. intros [rho Hopt].
    destruct (unbounded_no_optimum model rho Hunb Hopt).
  - split; [discriminate|]. intros Hinf.
    destruct Hunb as [[rho Hrho] _]. destruct (Hinf rho Hrho).
Qed.

Lemma optimum_status_agrees (model : LpProblem) (rho : Valuation) :
  lp_optimum model rho -> status_agrees model LpStatusOptimal.
Proof.
  intros Hopt. split; [|split].
  - split; [discriminate|]. intros Hunb.
    destruct (unbounded_no_optimum model rho Hunb Hopt).
  - split; [eauto|reflexivity].
  - split; [discriminate|]. intros Hinf.
    destruct Hopt as [Hrho _]. destruct (Hinf rho Hrho).
Qed.

(** The reference solver is exact on maximisations without constraints
    over the positive orthant. *)
Lemma reference_solver_exact :
  exact_on (fun model => free_maximisation model = true) reference_solver.
Proof.
  intros model Hclass. unfold reference_solver. rewrite Hclass.
  destruct (existsb _ (objective model)) eqn:E.
  - eexists _, _. split; [reflexivity|].
    apply existsb_exists in E as (t & Ht & Hgt). apply gt_spec in Hgt.
    apply unbounded_status_agrees.
    exact (free_maximisation_unbounded model t Hclass Ht Hgt).
  - eexists _, _. split; [reflexivity|].
    apply (optimum_status_agrees model (fun _ => 0)).
    apply free_maximisation_optimum; [exact Hclass|].
    intros t Ht. apply Qnot_lt_le. intros Hlt.
    apply gt_spec in Hlt.
    assert (existsb (fun t => gt (net (name (snd t)) (objective model)) 0)
                    (objective model) = true) as E'
      by (apply existsb_exists; exists t; split; assumption).
    congruence.
Qed.

(** ** [build_model] without constraints *)

Lemma paired_coeffs (nonneg : bool) (coeffs : list Q) (names : list string) :
  map fst (paired_terms nonneg coeffs names) = take (length names) coeffs.
Proof.
  unfold paired_terms. rewrite map_map. cbn [fst].
  revert names. induction coeffs as [|c coeffs IH]; intros [|n names];
    cbn; try reflexivity.
  rewrite IH. reflexivity.
Qed.

Lemma In_take {A} (x : A) (n : nat) (l : list A) : In x (take n l) -> In x l.
Proof.
  revert n. induction l as [|a l IH]; intros [|n] H; cbn in H; try contradiction.
  destruct H as [->|H]; [left; reflexivity|right; eapply IH, H].
Qed.

Lemma sign_dec (c : Q) : {c <= 0} + {0 < c}.
Proof. destruct (Qlt_le_dec 0 c); [right|left]; assumption. Qed.

Lemma In_paired_coeff (nonneg : bool) (coeffs : list Q) (names : list string) (c : Q) :
  In c (take (length names) coeffs) <->
  exists t, In t (paired_terms nonneg coeffs names) /\ fst t = c.
Proof.
  rewrite <- (paired_coeffs nonneg), in_map_iff. split.
  - intros (t & E & Ht). eauto.
  - intros (t & Ht & E). eauto.
Qed.

Lemma built_model_free (var_names : list string) (obj_coeffs : list Q) :
  free_maximisation (built_model var_names obj_coeffs [] "Maximize" true) = true.
Proof.
  unfold free_maximisation, built_model. cbn.
  apply forallb_forall. intros t Ht.
  pose proof (paired_terms_vars true obj_coeffs var_names) as H.
  rewrite Forall_forall in H.
  destruct (H t) as (n & _ & ->); [apply list_elem_of_In, Ht|]. reflexivity.
Qed.

Lemma net_nonneg (n : string) (e : LpAffineExpression) :
  (forall t, In t e -> 0 <= fst t) -> 0 <= net n e.
Proof.
  unfold net. induction e as [|t e IH]; intros H; cbn [eval]; [discriminate|].
  assert (0 <= fst t) as Ht by (apply H; left; reflexivity).
  assert (0 <= eval (point n 1) e) as He
    by (apply IH; intros t' Ht'; apply H; right; exact Ht').
  assert (0 <= point n 1 (name (snd t))) as Hp by (apply point_nonneg; discriminate).
  nra.
Qed.

Lemma net_at_least (e : LpAffineExpression) (t : Q * LpVariable) :
  (forall t', In t' e -> 0 <= fst t') -> In t e ->
  fst t <= net (name (snd t)) e.
Proof.
  intros Hpos Ht. induction e as [|t' e IH]; [destruct Ht|].
  assert (0 <= fst t') as Ht' by (apply Hpos; left; reflexivity).
  assert (forall u, In u e -> 0 <= fst u) as Hpos'
    by (intros u Hu; apply Hpos; right; exact Hu).
  unfold net. cbn [eval]. fold (net (name (snd t)) e).
  destruct Ht as [->|Ht].
  - rewrite point_same. pose proof (net_nonneg (name (snd t)) e Hpos'). lra.
  - specialize (IH Hpos' Ht).
    assert (0 <= point (name (snd t)) 1 (name (snd t'))) as Hp
      by (apply point_nonneg; discriminate).
    nra.
Qed.

Lemma net_null (n : string) (e : LpAffineExpression) :
  (forall t, In t e -> fst t == 0) -> net n e == 0.
Proof. apply eval_null_coeffs. Qed.

(** C5, as the code and the solver have it: under a solver that is exact
    on maximisations without constraints over the positive orthant, a
    model built with no constraint, [nonneg = True], Maximize sense and
    objective coefficients all >= 0 gets status Unbounded exactly when one
    of the coefficients paired with a variable is positive, and status
    Optimal when all of them are zero. *)
Theorem unconstrained_maximisation_status (solver : Solver)
    (var_names : list string) (obj_coeffs : list Q) :
  exact_on (fun model => free_maximisation model = true) solver ->
  Forall (fun c => 0 <= c) obj_coeffs ->
  exists model variables,
    build_model solver var_names obj_coeffs [] "Maximize" true = inr (model, variables) /\
    (status model = LpStatusUnbounded <->
       Exists (fun c => 0 < c) (take (length var_names) obj_coeffs)) /\
    (Forall (fun c => c == 0) (take (length var_names) obj_coeffs) ->
       status model = LpStatusOptimal).
Proof.
  intros Hexact Hpos.
  set (submitted := built_model var_names obj_coeffs [] "Maximize" true).
  pose proof (built_model_free var_names obj_coeffs) as Hclass. fold submitted in Hclass.
  destruct (Hexact submitted Hclass) as (st & vals & Hsolve & Hunb & Hopt & _).
  rewrite build_model_unfold. fold submitted. rewrite Hsolve.
  eexists _, _. split; [reflexivity|]. cbn [status].
  assert (forall c, In c (take (length var_names) obj_coeffs) -> 0 <= c) as Hpaired.
  { intros c Hc. rewrite Forall_forall in Hpos.
    apply Hpos, list_elem_of_In, (In_take c _ _ Hc). }
  assert (forall t, In t (objective submitted) -> 0 <= fst t) as Hterms.
  { intros t Ht. apply Hpaired, (In_paired_coeff true). eauto. }
  assert (Forall (fun c => c == 0) (take (length var_names) obj_coeffs) ->
          exists rho, lp_optimum submitted rho) as Hzero.
  { intros Hz. exists (fun _ => 0). apply free_maximisation_optimum; [exact Hclass|].
    intros t Ht. rewrite net_null; [discriminate|].
    intros t' Ht'. rewrite Forall_forall in Hz. apply Hz, list_elem_of_In.
    apply (In_paired_coeff true). eauto. }
  split; [split|].
  - intros Hst. apply Hunb in Hst.
    destruct (Forall_Exists_dec (fun c => c <= 0) (fun c => 0 < c) sign_dec
                (take (length var_names) obj_coeffs)) as [Hall|Hex]; [|exact Hex].
    exfalso. destruct Hzero as [rho Hrho].
    + apply Forall_forall. intros c Hc. rewrite Forall_forall in Hall.
      apply Qle_antisym; [apply Hall, Hc|apply Hpaired, list_elem_of_In, Hc].
    + exact (unbounded_no_optimum submitted rho Hst Hrho).
  - intros Hex. apply Hunb.
    apply Exists_exists in Hex as (c & Hc & Hlt).
    apply list_elem_of_In, (In_paired_coeff true) in Hc as (t & Ht & <-).
    apply (free_maximisation_unbounded submitted t Hclass Ht).
    eapply Qlt_le_trans; [exact Hlt|]. apply net_at_least; assumption.
  - intros Hz. apply Hopt, Hzero, Hz.
Qed.

Lemma unconstrained_maximisation_status_witness :
  exists model variables,
    build_model reference_solver ["x1"; "x2"] [3; 0] [] "Maximize" true =
      inr (model, variables) /\
    (status model = LpStatusUnbounded <->
       Exists (fun c => 0 < c) (take (length ["x1"; "x2"]) [3; 0])) /\
    (Forall (fun c => c == 0) (take (length ["x1"; "x2"]) [3; 0]) ->
       status model = LpStatusOptimal).
Proof.
  apply (unconstrained_maximisation_status reference_solver ["x1"; "x2"] [3; 0]).
  - exact reference_solver_exact.
  - repeat constructor; discriminate.
Defined.

(** The form's own defaults, two variables with objective coefficients
    0.0 and no constraint: every coefficient is >= 0, yet the objective is
    constantly zero, the model is not unbounded and an exact solver
    answers Optimal. *)
Lemma zero_objective_is_optimal :
  Forall (fun c => 0 <= c) [0; 0] /\
  build_model reference_solver ["x1"; "x2"] [0; 0] [] "Maximize" true =
    inr (mkLpProblem "User_Defined_LP" LpMaximize
           [(0, new_LpVariable "x1" (Some 0)); (0, new_LpVariable "x2" (Some 0))]
           [] LpStatusOptimal (<["x1" := 0]> (<["x2" := 0]> ∅)),
         built_variables ["x1"; "x2"] true) /\
  ~ lp_unbounded (built_model ["x1"; "x2"] [0; 0] [] "Maximize" true) /\
  ~ (forall solver var_names obj_coeffs,
       exact_on (fun model => free_maximisation model = true) solver ->
       Forall (fun c => 0 <= c) obj_coeffs ->
       exists model variables,
         build_model solver var_names obj_coeffs [] "Maximize" true =
           inr (model, variables) /\
         status model = LpStatusUnbounded).
Proof.
  split; [repeat constructor; discriminate|].
  split; [vm_compute; reflexivity|].
  split.
  - intros [_ Hunb]. destruct (Hunb 0) as (rho & _ & Hbetter).
    unfold better, objective_at in Hbetter. cbn in Hbetter. lra.
  - intros Hclaim.
    destruct (Hclaim reference_solver ["x1"; "x2"] [0; 0] reference_solver_exact)
      as (model & variables & Hbuild & Hst);
      [repeat constructor; discriminate|].
    vm_compute in Hbuild. injection Hbuild as <- _. discriminate Hst.
Qed.

(** * Further properties *)

(** ** The 2x2 solver: order of the equations, uniqueness, singular systems *)

Lemma beyond_eps_compat (d d' : Q) : Qabs d == Qabs d' -> gt (Qabs d) eps = gt (Qabs d') eps.
Proof.
  intros E. destruct (gt (Qabs d') eps) eqn:E'.
  - apply gt_spec. apply gt_spec in E'. rewrite E. exact E'.
  - apply gt_false. apply gt_false in E'. rewrite E. exact E'.
Qed.

Lemma det_swap (a1 b1 a2 b2 : Q) :
  Qabs (a2 * b1 - a1 * b2) == Qabs (a1 * b2 - a2 * b1).
Proof.
  rewrite <- (Qabs_opp (a1 * b2 - a2 * b1)). apply Qabs_wd. ring.
Qed.

(** Exchanging the two equations changes neither the classification nor
    the solution. *)
Theorem solve_system_swap (a1 b1 c1 a2 b2 c2 : Q) :
  exists s s',
    solve_system a1 b1 c1 a2 b2 c2 = inr s /\
    solve_system a2 b2 c2 a1 b1 c1 = inr s' /\
    has_unique s = has_unique s' /\
    opt_eq (x_sol s) (x_sol s') /\
    opt_eq (y_sol s) (y_sol s').
Proof.
  destruct (beyond_eps_dec (a1 * b2 - a2 * b1)) as [H|H].
  - assert (eps < Qabs (a2 * b1 - a1 * b2)) as H' by (rewrite det_swap; exact H).
    eexists _, _.
    split; [apply solve_system_unique, H|].
    split; [apply solve_system_unique, H'|].
    pose proof (beyond_eps_nonzero _ H) as Hd.
    pose proof (beyond_eps_nonzero _ H') as Hd'.
    cbn. repeat split; field; split; assumption.
  - assert (~ eps < Qabs (a2 * b1 - a1 * b2)) as H' by (rewrite det_swap; exact H).
    eexists _, _.
    split; [apply solve_system_degenerate, H|].
    split; [apply solve_system_degenerate, H'|].
    cbn. repeat split.
Qed.

(** When the solver reports a unique solution, every pair that satisfies
    both equations is the pair it returns. *)
Theorem reported_solution_is_the_only_one (a1 b1 c1 a2 b2 c2 : Q) (s : Solution)
    (x y x' y' : Q) :
  solve_system a1 b1 c1 a2 b2 c2 = inr s ->
  has_unique s = true -> x_sol s = Some x -> y_sol s = Some y ->
  solves a1 b1 c1 a2 b2 c2 x' y' ->
  x' == x /\ y' == y.
Proof.
  intros Hs Hu Hx Hy [E1 E2].
  destruct (beyond_eps_dec (a1 * b2 - a2 * b1)) as [H|H].
  - rewrite solve_system_unique in Hs by exact H.
    injection Hs as <-. cbn in Hx, Hy.
    injection Hx as <-. injection Hy as <-.
    pose proof (beyond_eps_nonzero _ H) as Hd.
    rewrite <- E1, <- E2. split; field; exact Hd.
  - rewrite solve_system_degenerate in Hs by exact H.
    injection Hs as <-. discriminate Hu.
Qed.

Lemma reported_solution_is_the_only_one_witness :
  10 # 3 == 10 # 3 /\ 40 # 6 == 20 # 3.
Proof.
  apply (reported_solution_is_the_only_one 1 1 10 2 (-(1)) 0
           (mkSolution (-(3)) true (Some (10 # 3)) (Some (20 # 3)))
           (10 # 3) (20 # 3) (10 # 3) (40 # 6));
    try reflexivity.
  split; reflexivity.
Defined.

(** A system whose determinant is exactly zero is reported as having no
    unique solution, rightly: next to any solution it has another one. *)
Theorem singular_system_has_no_single_solution (a1 b1 c1 a2 b2 c2 : Q) :
  a1 * b2 - a2 * b1 == 0 ->
  solve_system a1 b1 c1 a2 b2 c2 = inr (mkSolution (a1 * b2 - a2 * b1) false None None) /\
  forall x y, solves a1 b1 c1 a2 b2 c2 x y ->
    exists x' y', solves a1 b1 c1 a2 b2 c2 x' y' /\ ~ (x' == x /\ y' == y).
Proof.
  intros Hdet. split.
  - apply solve_system_degenerate. rewrite Hdet. discriminate.
  - intros x y [E1 E2].
    assert (a1 * b2 == a2 * b1) as Hd by lra.
    destruct (Qeq_dec b1 0) as [Hb1|Hb1]; [destruct (Qeq_dec a1 0) as [Ha1|Ha1]|].
    + destruct (Qeq_dec b2 0) as [Hb2|Hb2]; [destruct (Qeq_dec a2 0) as [Ha2|Ha2]|].
      * exists (x + 1), y. split.
        -- split; [rewrite <- E1|rewrite <- E2]; rewrite ?Ha1, ?Hb1, ?Ha2, ?Hb2; ring.
        -- intros [E _]. lra.
      * exists x, (y - a2). split.
        -- split; [rewrite <- E1; rewrite Ha1, Hb1; ring|].
           rewrite <- E2. rewrite Hb2. ring.
        -- intros [_ E]. apply Ha2. lra.
      * exists (x + b2), (y - a2). split.
        -- split; [rewrite <- E1; rewrite Ha1, Hb1; ring|].
           rewrite <- E2. ring.
        -- intros [E _]. apply Hb2. lra.
    + exists x, (y - a1). split.
      * split; [rewrite <- E1; rewrite Hb1; ring|].
        rewrite <- E2. rewrite Hb1 in Hd.
        assert (a1 * b2 == 0) as Hz by lra.
        apply Qmult_integral in Hz as [Hz|Hz]; [contradiction|].
        rewrite Hz. ring.
      * intros [_ E]. apply Ha1. lra.
    + exists (x + b1), (y - a1). split.
      * split; [rewrite <- E1; ring|]. rewrite <- E2.
        assert (a2 * (x + b1) + b2 * (y - a1) ==
                a2 * x + b2 * y - (a1 * b2 - a2 * b1)) as -> by ring.
        rewrite Hdet. ring.
      * intros [E _]. apply Hb1. lra.
Qed.

Lemma singular_system_has_no_single_solution_witness :
  solve_system 1 1 5 2 2 10 = inr (mkSolution (1 * 2 - 2 * 1) false None None) /\
  forall x y, solves 1 1 5 2 2 10 x y ->
    exists x' y', solves 1 1 5 2 2 10 x' y' /\ ~ (x' == x /\ y' == y).
Proof.
  apply (singular_system_has_no_single_solution 1 1 5 2 2 10). reflexivity.
Defined.

(** ** The plotted domain *)

Lemma linspace_first (start stop : Q) (num : nat) :
  (1 <= num)%nat -> exists y, linspace start stop num !! 0%nat = Some y /\ y == start.
Proof.
  intros Hnum. destruct num as [|[|k]]; [lia| |].
  - exists start. split; reflexivity.
  - destruct (linspace_lookup start stop (S (S k)) 0) as (y & Hy & E); [lia..|].
    exists y. split; [exact Hy|]. rewrite E. cbn [Z.of_nat inject_Z]. ring.
Qed.

Lemma linspace_last (start stop : Q) (num : nat) :
  (2 <= num)%nat -> linspace start stop num !! (num - 1)%nat = Some stop.
Proof.
  intros Hnum. destruct num as [|[|k]]; [lia..|].
  unfold linspace.
  rewrite lookup_app_r by (rewrite length_take, length_linspace_raw; lia).
  rewrite length_take, length_linspace_raw.
  replace (S (S k) - 1 - S k `min` S (S k))%nat with 0%nat by lia. reflexivity.
Qed.

(** The samples increase strictly when [start < stop]. *)
Lemma linspace_increasing (start stop : Q) (num i j : nat) (yi yj : Q) :
  start < stop -> (i < j)%nat ->
  linspace start stop num !! i = Some yi ->
  linspace start stop num !! j = Some yj ->
  yi < yj.
Proof.
  intros Hlt Hij Hi Hj.
  assert (j < num)%nat as Hjn
    by (apply lookup_lt_Some in Hj; rewrite length_linspace in Hj; exact Hj).
  destruct (linspace_lookup start stop num i) as (yi' & Hi' & Ei); [lia..|].
  destruct (linspace_lookup start stop num j) as (yj' & Hj' & Ej); [lia..|].
  rewrite Hi in Hi'. injection Hi' as <-.
  rewrite Hj in Hj'. injection Hj' as <-.
  rewrite Ei, Ej.
  set (step := (stop - start) / inject_Z (Z.of_nat (num - 1))).
  assert (0 < step) as Hstep.
  { unfold step. apply Qlt_shift_div_l.
    - change 0 with (inject_Z 0). rewrite <- Zlt_Qlt. lia.
    - lra. }
  assert (inject_Z (Z.of_nat i) < inject_Z (Z.of_nat j)) as Hinj
    by (rewrite <- Zlt_Qlt; lia).
  nra.
Qed.

Lemma x_range_ordered (s : Solution) : fst (x_range s) <= -(10) /\ 10 <= snd (x_range s).
Proof.
  unfold x_range. destruct (has_unique s); [|split; discriminate].
  destruct (x_sol s) as [x|]; [|split; discriminate].
  cbn. split; [apply Q.le_min_l|apply Q.le_max_l].
Qed.

(** The x-domain of the plot always covers [-10, 10]; with a unique
    solution it also reaches 5 units to each side of its x-coordinate,
    and without one it is exactly [-10, 10].  Its 400 samples run from the
    lower to the upper end, strictly increasing. *)
Theorem plot_domain (a1 b1 c1 a2 b2 c2 : Q) (s : Solution) :
  solve_system a1 b1 c1 a2 b2 c2 = inr s ->
  exists x_min x_max,
    x_range s = (x_min, x_max) /\
    x_min <= -(10) /\ 10 <= x_max /\
    (forall x, x_sol s = Some x -> x_min <= x - 5 /\ x + 5 <= x_max) /\
    (has_unique s = false -> x_min = -(10) /\ x_max = 10) /\
    (exists y0, x_vals s !! 0%nat = Some y0 /\ y0 == x_min) /\
    x_vals s !! 399%nat = Some x_max /\
    (forall i j yi yj, (i < j)%nat ->
       x_vals s !! i = Some yi -> x_vals s !! j = Some yj -> yi < yj).
Proof.
  intros Hs.
  pose proof (x_range_ordered s) as [Hlo Hhi].
  assert (has_unique s = false -> x_sol s = None) as Hnone.
  { destruct (beyond_eps_dec (a1 * b2 - a2 * b1)) as [H|H].
    - rewrite solve_system_unique in Hs by exact H. injection Hs as <-. discriminate.
    - rewrite solve_system_degenerate in Hs by exact H. injection Hs as <-. reflexivity. }
  unfold x_vals.
  destruct (x_range s) as [x_min x_max] eqn:Hrange. cbn [fst snd] in Hlo, Hhi.
  exists x_min, x_max.
  split; [reflexivity|]. split; [exact Hlo|]. split; [exact Hhi|].
  split; [|split; [|split; [|split]]].
  - intros x Hx. unfold x_range in Hrange. rewrite Hx in Hrange.
    destruct (has_unique s) eqn:Hu.
    + cbn in Hrange. injection Hrange as <- <-.
      split; [apply Q.le_min_r|apply Q.le_max_r].
    + rewrite (Hnone eq_refl) in Hx. discriminate Hx.
  - intros Hu. unfold x_range in Hrange. rewrite Hu in Hrange.
    injection Hrange as <- <-. split; reflexivity.
  - apply linspace_first. lia.
  - apply (linspace_last x_min x_max 400). lia.
  - intros i j yi yj Hij Hi Hj.
    apply (linspace_increasing x_min x_max 400 i j); [lra|assumption..].
Qed.

Lemma plot_domain_witness :
  exists x_min x_max,
    x_range (mkSolution (-(3)) true (Some (10 # 3)) (Some (20 # 3))) = (x_min, x_max) /\
    x_min <= -(10) /\ 10 <= x_max.
Proof.
  destruct (plot_domain 1 1 10 2 (-(1)) 0
              (mkSolution (-(3)) true (Some (10 # 3)) (Some (20 # 3))))
    as (x_min & x_max & H1 & H2 & H3 & _); [reflexivity|].
  exists x_min, x_max. repeat split; assumption.
Defined.

(** ** The sampled points and the line *)

Lemma lookup_repeat {A} (v x : A) (n i : nat) :
  repeat v n !! i = Some x -> x = v.
Proof.
  revert i. induction n as [|n IH]; intros [|i] H; cbn in H; try discriminate.
  - injection H as <-. reflexivity.
  - eapply IH, H.
Qed.

Lemma not_beyond_eps (d : Q) : ~ eps < Qabs d -> Qabs d <= eps.
Proof. apply Qnot_lt_le. Qed.

(** Every point [line_points] returns lies on the line [a x + b y = c]:
    exactly in the non-vertical branch, and in the vertical branch
    exactly when [b] is zero and within [10 * 1e-9] otherwise (the
    branch is taken for every [|b| <= 1e-9]). *)
Theorem sampled_points_on_line (xs : list Q) (a b c : Q)
    (pts_x pts_y : list Q) (vertical : bool) (x_vert : option Q) (i : nat) (x y : Q) :
  line_points xs a b c = inr (pts_x, pts_y, vertical, x_vert) ->
  pts_x !! i = Some x -> pts_y !! i = Some y ->
  Qabs (a * x + b * y - c) <= 10 * eps /\
  (vertical = false -> a * x + b * y == c) /\
  (b == 0 -> a * x + b * y == c).
Proof.
  unfold line_points. intros Hlp Hx Hy.
  destruct (beyond_eps_dec b) as [Hb|Hb]; [|destruct (beyond_eps_dec a) as [Ha|Ha]].
  - rewrite (line_points_with_sloped py_div py_div_guarded) in Hlp by exact Hb.
    injection Hlp as <- <- <- <-.
    rewrite map_fmap, list_lookup_fmap, Hx in Hy. injection Hy as <-.
    pose proof (beyond_eps_nonzero _ Hb) as Hb0.
    assert (a * x + b * ((c - a * x) / b) == c) as E by (field; exact Hb0).
    split; [|split; intros _; exact E].
    assert (a * x + b * ((c - a * x) / b) - c == 0) as -> by (rewrite E; ring).
    discriminate.
  - rewrite (line_points_with_vertical py_div py_div_guarded) in Hlp by assumption.
    pose proof y_domain_within as Hdom.
    remember (linspace (-(10)) 10 400) as ys eqn:Eys. clear Eys.
    rewrite full_like_repeat in Hlp.
    remember (length ys) as n eqn:En. clear En.
    injection Hlp as <- <- <- <-.
    apply lookup_repeat in Hx as ->.
    pose proof (beyond_eps_nonzero _ Ha) as Ha0.
    assert (a * (c / a) + b * y - c == b * y) as E by (field; exact Ha0).
    assert (-(10) <= y /\ y <= 10) as Hrange.
    { rewrite Forall_forall in Hdom.
      apply Hdom. eapply list_elem_of_lookup_2, Hy. }
    split; [|split].
    + rewrite E, Qabs_Qmult.
      pose proof (not_beyond_eps _ Hb) as Hb'.
      assert (Qabs y <= 10) as Hy' by (apply Qabs_Qle_condition; exact Hrange).
      pose proof (Qabs_nonneg b). pose proof (Qabs_nonneg y).
      pose proof eps_pos. nra.
    + discriminate.
    + intros Hb0. rewrite Hb0. field. exact Ha0.
  - rewrite (line_points_with_degenerate py_div) in Hlp by assumption.
    injection Hlp as <- <- <- <-. discriminate Hx.
Qed.

Lemma sampled_points_on_line_witness :
  Qabs (2 * 1 + 4 * (10 # 4) - 12) <= 10 * eps /\
  (false = false -> 2 * 1 + 4 * (10 # 4) == 12) /\
  (4 == 0 -> 2 * 1 + 4 * (10 # 4) == 12).
Proof.
  apply (sampled_points_on_line [0; 1; 2] 2 4 12
           [0; 1; 2] [12 / 4; (12 - 2 * 1) / 4; (12 - 2 * 2) / 4] false None 1).
  - reflexivity.
  - reflexivity.
  - vm_compute. reflexivity.
Defined.

(** ** The figure *)

Lemma line_points_shape (s : Solution) (a b c : Q) :
  exists xs ys vertical x_vert,
    line_points (x_vals s) a b c = inr (xs, ys, vertical, x_vert) /\
    Nat.ltb 0 (length xs) = gt (Qabs b) eps || gt (Qabs a) eps.
Proof.
  unfold line_points.
  destruct (beyond_eps_dec b) as [Hb|Hb]; [|destruct (beyond_eps_dec a) as [Ha|Ha]].
  - rewrite (line_points_with_sloped py_div py_div_guarded) by exact Hb.
    eexists _, _, _, _. split; [reflexivity|].
    rewrite length_x_vals, (proj2 (gt_spec _ _) Hb). reflexivity.
  - rewrite (line_points_with_vertical py_div py_div_guarded) by assumption.
    eexists _, _, _, _. split; [reflexivity|].
    unfold full_like. rewrite length_map, length_linspace.
    rewrite (proj2 (gt_false _ _) Hb), (proj2 (gt_spec _ _) Ha). reflexivity.
  - rewrite (line_points_with_degenerate py_div) by assumption.
    eexists _, _, _, _. split; [reflexivity|].
    rewrite (proj2 (gt_false _ _) Hb), (proj2 (gt_false _ _) Ha). reflexivity.
Qed.

Lemma cramer_solves (a1 b1 c1 a2 b2 c2 : Q) :
  ~ a1 * b2 - a2 * b1 == 0 ->
  solves a1 b1 c1 a2 b2 c2
         ((c1 * b2 - c2 * b1) / (a1 * b2 - a2 * b1))
         ((a1 * c2 - a2 * c1) / (a1 * b2 - a2 * b1)).
Proof. intros H. split; field; exact H. Qed.

(** The script always gets as far as the figure.  The trace of an
    equation is there exactly when the equation is not degenerate
    ([|b| > 1e-9] or [|a| > 1e-9]), the intersection marker exactly when a
    unique solution is reported, and the marker is a single point that
    solves both equations. *)
Theorem figure_traces (a1 b1 c1 a2 b2 c2 : Q) :
  exists fig,
    figure a1 b1 c1 a2 b2 c2 = inr fig /\
    existsb (is_line "Equation 1") fig = gt (Qabs b1) eps || gt (Qabs a1) eps /\
    existsb (is_line "Equation 2") fig = gt (Qabs b2) eps || gt (Qabs a2) eps /\
    existsb is_marker fig = gt (Qabs (a1 * b2 - a2 * b1)) eps /\
    forall xs ys n, Scatter xs ys "markers" n ∈ fig ->
      exists x y, xs = [x] /\ ys = [y] /\ solves a1 b1 c1 a2 b2 c2 x y.
Proof.
  unfold figure.
  destruct (beyond_eps_dec (a1 * b2 - a2 * b1)) as [H|H].
  - rewrite solve_system_unique by exact H. cbn [bind].
    set (s := mkSolution _ _ _ _).
    destruct (line_points_shape s a1 b1 c1) as (x1 & y1 & v1 & w1 & -> & L1).
    destruct (line_points_shape s a2 b2 c2) as (x2 & y2 & v2 & w2 & -> & L2).
    cbn [bind has_unique x_sol y_sol isfinite andb s]. rewrite L1, L2.
    rewrite (proj2 (gt_spec _ _) H).
    pose proof (cramer_solves a1 b1 c1 a2 b2 c2 (beyond_eps_nonzero _ H)) as Hsol.
    eexists. split; [reflexivity|].
    destruct (gt (Qabs b1) eps || gt (Qabs a1) eps),
             (gt (Qabs b2) eps || gt (Qabs a2) eps);
      cbn; (split; [reflexivity|split; [reflexivity|split; [reflexivity|]]]);
      intros xs ys n Hin;
      repeat (apply elem_of_cons in Hin as [Hin|Hin]; [try discriminate Hin|]);
      try (apply elem_of_nil in Hin; contradiction);
      injection Hin as -> -> _; eauto.
  - rewrite solve_system_degenerate by exact H. cbn [bind].
    set (s := mkSolution _ _ _ _).
    destruct (line_points_shape s a1 b1 c1) as (x1 & y1 & v1 & w1 & -> & L1).
    destruct (line_points_shape s a2 b2 c2) as (x2 & y2 & v2 & w2 & -> & L2).
    cbn [bind has_unique x_sol y_sol s]. rewrite L1, L2.
    rewrite (proj2 (gt_false _ _) H).
    eexists. split; [reflexivity|].
    destruct (gt (Qabs b1) eps || gt (Qabs a1) eps),
             (gt (Qabs b2) eps || gt (Qabs a2) eps);
      cbn; (split; [reflexivity|split; [reflexivity|split; [reflexivity|]]]);
      intros xs ys n Hin;
      repeat (apply elem_of_cons in Hin as [Hin|Hin]; [discriminate Hin|]);
      apply elem_of_nil in Hin; contradiction.
Qed.

(** ** [build_model]: the dictionary of variables and the constraint names *)

Lemma length_remove_dups_le (l : list string) :
  (length (remove_dups l) <= length l)%nat.
Proof.
  induction l as [|x l IH]; cbn; [lia|].
  destruct (decide_rel elem_of x l); cbn; lia.
Qed.

Lemma length_remove_dups_NoDup (l : list string) :
  length (remove_dups l) = length l <-> NoDup l.
Proof.
  induction l as [|x l IH]; cbn.
  - split; [constructor|reflexivity].
  - pose proof (length_remove_dups_le l) as Hle.
    destruct (decide_rel elem_of x l) as [Hin|Hin]; cbn.
    + split; [lia|]. intros Hnd. apply NoDup_cons in Hnd as [Hx _]. contradiction.
    + rewrite NoDup_cons. split.
      * intros H. split; [exact Hin|]. apply IH. lia.
      * intros [_ H]. apply IH in H. lia.
Qed.

Lemma dom_built_variables (var_names : list string) (nonneg : bool) :
  dom (built_variables var_names nonneg) = list_to_set var_names.
Proof.
  apply set_eq. intros n.
  rewrite elem_of_dom, built_variables_lookup, elem_of_list_to_set.
  destruct (decide (n ∈ var_names)) as [H|H].
  - split; [intros _; exact H|eauto].
  - split; [intros [v Hv]; discriminate Hv|contradiction].
Qed.

Lemma size_built_variables (var_names : list string) (nonneg : bool) :
  size (built_variables var_names nonneg) = length (remove_dups var_names).
Proof.
  rewrite <- size_dom, dom_built_variables.
  rewrite <- (size_list_to_set (C := gset string) (remove_dups var_names))
    by apply NoDup_remove_dups.
  f_equal. apply set_eq. intros n.
  rewrite !elem_of_list_to_set, elem_of_remove_dups. reflexivity.
Qed.

Lemma build_model_returns (solver : Solver)
    (var_names : list string) (obj_coeffs : list Q)
    (rows : list (list Q * string * Q)) (sense_name : string) (nonneg : bool)
    (model : LpProblem) (variables : gmap string LpVariable) :
  build_model solver var_names obj_coeffs rows sense_name nonneg = inr (model, variables) ->
  exists st vals,
    solver (built_model var_names obj_coeffs rows sense_name nonneg) = inr (st, vals) /\
    model = mkLpProblem "User_Defined_LP"
              (if String.eqb sense_name "Maximize" then LpMaximize else LpMinimize)
              (paired_terms nonneg obj_coeffs var_names)
              (map (built_constraint nonneg var_names) (enumerate rows 1))
              st vals /\
    variables = built_variables var_names nonneg.
Proof.
  rewrite build_model_unfold.
  destruct (solver _) as [e|[st vals]]; [discriminate|].
  intros [= <- <-]. eauto.
Qed.

(** The dictionary [build_model] returns has one variable per distinct
    name: names given twice share one variable, so it has as many entries
    as there are names exactly when no name is repeated. *)
Theorem one_variable_per_distinct_name (solver : Solver)
    (var_names : list string) (obj_coeffs : list Q)
    (rows : list (list Q * string * Q)) (sense_name : string) (nonneg : bool)
    (model : LpProblem) (variables : gmap string LpVariable) :
  build_model solver var_names obj_coeffs rows sense_name nonneg = inr (model, variables) ->
  dom variables = list_to_set var_names /\
  size variables = length (remove_dups var_names) /\
  (size variables = length var_names <-> NoDup var_names).
Proof.
  intros H. apply build_model_returns in H as (st & vals & _ & _ & ->).
  split; [apply dom_built_variables|].
  rewrite size_built_variables. split; [reflexivity|].
  apply length_remove_dups_NoDup.
Qed.

Lemma one_variable_per_distinct_name_witness :
  dom (built_variables ["x"; "y"; "x"] true) = list_to_set ["x"; "y"; "x"] /\
  size (built_variables ["x"; "y"; "x"] true) = length (remove_dups ["x"; "y"; "x"]) /\
  (size (built_variables ["x"; "y"; "x"] true) = length ["x"; "y"; "x"] <->
   NoDup ["x"; "y"; "x"]).
Proof.
  apply (one_variable_per_distinct_name (constant_solver LpStatusOptimal)
           ["x"; "y"; "x"] [1; 2; 3] [] "Maximize" true
           (mkLpProblem "User_Defined_LP" LpMaximize
              [(1, new_LpVariable "x" (Some 0)); (2, new_LpVariable "y" (Some 0));
               (3, new_LpVariable "x" (Some 0))]
              [] LpStatusOptimal ∅)).
  vm_compute. reflexivity.
Defined.

(** Every variable that occurs in the objective or in a constraint of the
    returned model is the dictionary's entry for its name: the values read
    from the dictionary are those of the model's variables. *)
Theorem model_variables_are_dictionary_entries (solver : Solver)
    (var_names : list string) (obj_coeffs : list Q)
    (rows : list (list Q * string * Q)) (sense_name : string) (nonneg : bool)
    (model : LpProblem) (variables : gmap string LpVariable) :
  build_model solver var_names obj_coeffs rows sense_name nonneg = inr (model, variables) ->
  Forall (fun v => variables !! name v = Some v) (lp_variables model).
Proof.
  intros H. apply build_model_returns in H as (st & vals & _ & -> & ->).
  eapply Forall_impl; [apply lp_variables_built|].
  intros v (n & Hn & ->). cbn [name new_LpVariable].
  rewrite built_variables_lookup, decide_True by exact Hn. reflexivity.
Qed.

Lemma model_variables_are_dictionary_entries_witness :
  Forall (fun v => built_variables ["x"; "y"] true !! name v = Some v)
    (lp_variables
       (mkLpProblem "User_Defined_LP" LpMaximize
          [(3, new_LpVariable "x" (Some 0)); (2, new_LpVariable "y" (Some 0))]
          [mkLpConstraint "constr_1"
             [(1, new_LpVariable "x" (Some 0)); (1, new_LpVariable "y" (Some 0))]
             LpConstraintLE 4]
          LpStatusOptimal ∅)).
Proof.
  apply (model_variables_are_dictionary_entries (constant_solver LpStatusOptimal)
           ["x"; "y"] [3; 2] [([1; 1], "<=", 4)] "Maximize" true).
  vm_compute. reflexivity.
Defined.

Lemma constr_name_inj (i j : nat) :
  "constr_" +:+ pretty i = "constr_" +:+ pretty j -> i = j.
Proof.
  cbn. intros H. injection H as H. exact (inj pretty _ _ H).
Qed.

Lemma cname_built (nonneg : bool) (var_names : list string)
    (rows : list (list Q * string * Q)) (start : nat) :
  map cname (map (built_constraint nonneg var_names) (enumerate rows start)) =
  map (fun i => "constr_" +:+ pretty i) (seq start (length rows)).
Proof.
  unfold enumerate. revert start.
  induction rows as [|[[row relation] bound] rows IH]; intros start; [reflexivity|].
  cbn [length seq zip_with map built_constraint cname]. rewrite IH. reflexivity.
Qed.

(** The constraints of the returned model are the rows in order, named
    constr_1, constr_2, ...: as many as rows, with pairwise distinct
    names. *)
Theorem constraint_names_sequential (solver : Solver)
    (var_names : list string) (obj_coeffs : list Q)
    (rows : list (list Q * string * Q)) (sense_name : string) (nonneg : bool)
    (model : LpProblem) (variables : gmap string LpVariable) :
  build_model solver var_names obj_coeffs rows sense_name nonneg = inr (model, variables) ->
  map cname (constraints model) =
    map (fun i => "constr_" +:+ pretty i) (seq 1 (length rows)) /\
  length (constraints model) = length rows /\
  NoDup (map cname (constraints model)).
Proof.
  intros H. apply build_model_returns in H as (st & vals & _ & -> & _).
  cbn [constraints]. rewrite cname_built.
  split; [reflexivity|]. split.
  - rewrite length_map. unfold enumerate.
    rewrite length_zip_with, length_seq. lia.
  - rewrite map_fmap. apply NoDup_fmap_2_strong; [|apply NoDup_seq].
    intros i j _ _. apply constr_name_inj.
Qed.

Lemma constraint_names_sequential_witness :
  map cname
    [mkLpConstraint "constr_1" [(1, new_LpVariable "x" (Some 0))] LpConstraintLE 4;
     mkLpConstraint "constr_2" [(2, new_LpVariable "x" (Some 0))] LpConstraintGE 1] =
    map (fun i => "constr_" +:+ pretty i) (seq 1 (length [([1], "<=", 4); ([2], ">=", 1)])) /\
  length
    [mkLpConstraint "constr_1" [(1, new_LpVariable "x" (Some 0))] LpConstraintLE 4;
     mkLpConstraint "constr_2" [(2, new_LpVariable "x" (Some 0))] LpConstraintGE 1] =
    length [([1], "<=", 4); ([2], ">=", 1)] /\
  NoDup (map cname
    [mkLpConstraint "constr_1" [(1, new_LpVariable "x" (Some 0))] LpConstraintLE 4;
     mkLpConstraint "constr_2" [(2, new_LpVariable "x" (Some 0))] LpConstraintGE 1]).
Proof.
  apply (constraint_names_sequential (constant_solver LpStatusOptimal)
           ["x"] [1] [([1], "<=", 4); ([2], ">=", 1)] "Maximize" true
           (mkLpProblem "User_Defined_LP" LpMaximize
              [(1, new_LpVariable "x" (Some 0))]
              [mkLpConstraint "constr_1" [(1, new_LpVariable "x" (Some 0))] LpConstraintLE 4;
               mkLpConstraint "constr_2" [(2, new_LpVariable "x" (Some 0))] LpConstraintGE 1]
              LpStatusOptimal ∅)
           (built_variables ["x"] true)).
  vm_compute. reflexivity.
Defined.

(** With an empty list of names every coefficient is dropped: the model
    has no variable, an empty objective and one constraint per row, each
    without terms; the solver is called all the same. *)
Theorem no_names_no_terms (solver : Solver) (obj_coeffs : list Q)
    (rows : list (list Q * string * Q)) (sense_name : string) (nonneg : bool) :
  (forall e, build_model solver [] obj_coeffs rows sense_name nonneg = inl e <->
             solver (built_model [] obj_coeffs rows sense_name nonneg) = inl e) /\
  forall model variables,
    build_model solver [] obj_coeffs rows sense_name nonneg = inr (model, variables) ->
    variables = ∅ /\ objective model = [] /\ lp_variables model = [] /\
    length (constraints model) = length rows /\
    Forall (fun c => expr c = []) (constraints model).
Proof.
  split.
  - intros e. rewrite build_model_unfold.
    destruct (solver _) as [e'|[st vals]]; [|split; discriminate].
    split; intros [= ->]; reflexivity.
  - intros model variables H.
    apply build_model_returns in H as (st & vals & _ & -> & ->).
    assert (forall coeffs, paired_terms nonneg coeffs [] = []) as Hnil.
    { intros coeffs. unfold paired_terms. destruct coeffs; reflexivity. }
    assert (Forall (fun c => expr c = [])
              (map (built_constraint nonneg []) (enumerate rows 1))) as Hrows.
    { rewrite Forall_map. apply Forall_forall.
      intros [idx [[row relation] bound]] _. cbn. apply Hnil. }
    split; [reflexivity|]. split; [apply Hnil|]. split; [|split].
    + unfold lp_variables. cbn [objective constraints]. rewrite Hnil. cbn [map app].
      induction Hrows as [|c cs Hc _ IH]; [reflexivity|].
      cbn [flat_map]. rewrite Hc, IH. reflexivity.
    + cbn [constraints]. rewrite length_map. unfold enumerate.
      rewrite length_zip_with, length_seq. lia.
    + exact Hrows.
Qed.

(** ** [main]: from the form to the model *)

Lemma enumerate_fst {A B} (f : nat -> B) (l : list A) (start : nat) :
  map (fun ix : nat * A => f (fst ix)) (enumerate l start) =
  map f (seq start (length l)).
Proof.
  unfold enumerate. revert start.
  induction l as [|a l IH]; intros start; [reflexivity|].
  cbn [length seq zip_with map fst]. rewrite IH. reflexivity.
Qed.

Lemma length_form_var_names (strip : string -> string) (w : Widgets) :
  length (form_var_names strip w) = num_vars w.
Proof. unfold form_var_names. rewrite length_map, length_seq. reflexivity. Qed.

Lemma form_obj_coeffs_eq (strip : string -> string) (w : Widgets) :
  form_obj_coeffs strip w = map (obj_coeff_input w) (seq 0 (num_vars w)).
Proof.
  unfold form_obj_coeffs. rewrite enumerate_fst, length_form_var_names. reflexivity.
Qed.

Lemma form_constraints_eq (strip : string -> string) (w : Widgets) :
  form_constraints strip w =
  map (fun j => (map (con_coeff_input w j) (seq 0 (num_vars w)),
                 relation_choice w j, rhs_input w j))
      (seq 0 (num_constraints w)).
Proof.
  unfold form_constraints.
  destruct (num_constraints w) as [|k] eqn:E; [reflexivity|].
  cbn [Nat.ltb Nat.leb]. apply map_ext. intros j.
  rewrite enumerate_fst, length_form_var_names. reflexivity.
Qed.

Lemma form_constraints_lookup (strip : string -> string) (w : Widgets) (j : nat) :
  (j < num_constraints w)%nat ->
  form_constraints strip w !! j =
    Some (map (con_coeff_input w j) (seq 0 (num_vars w)),
          relation_choice w j, rhs_input w j).
Proof.
  intros Hj. rewrite form_constraints_eq, map_fmap, list_lookup_fmap.
  rewrite lookup_seq_lt by exact Hj. reflexivity.
Qed.

Lemma form_not_ill_formed (strip : string -> string) (w : Widgets) :
  (forall j, (j < num_constraints w)%nat ->
             relation_choice w j ∈ ["<="; ">="; "="]) ->
  ~ ill_formed (form_var_names strip w) (form_obj_coeffs strip w)
               (form_constraints strip w).
Proof.
  intros Hrel [Hlen|[Hrow|Htok]].
  - rewrite form_obj_coeffs_eq, length_map, length_seq, length_form_var_names in Hlen.
    lia.
  - apply Exists_exists in Hrow as (c & Hc & Hne).
    apply list_elem_of_lookup in Hc as (j & Hj).
    pose proof (lookup_lt_Some _ _ _ Hj) as Hlt.
    rewrite form_constraints_eq, length_map, length_seq in Hlt.
    rewrite form_constraints_lookup in Hj by exact Hlt. injection Hj as <-.
    cbn [fst] in Hne.
    rewrite length_map, length_seq, length_form_var_names in Hne. congruence.
  - apply Exists_exists in Htok as (c & Hc & Hne).
    apply list_elem_of_lookup in Hc as (j & Hj).
    pose proof (lookup_lt_Some _ _ _ Hj) as Hlt.
    rewrite form_constraints_eq, length_map, length_seq in Hlt.
    rewrite form_constraints_lookup in Hj by exact Hlt. injection Hj as <-.
    cbn [fst snd] in Hne. apply Hne, Hrel, Hlt.
Qed.

(** The lists the form hands to [build_model] always fit together: one
    objective coefficient per name, one coefficient per name in every
    row, one row per constraint; with relations taken from the select box
    they are never ill-formed. *)
Theorem form_inputs_are_well_formed (strip : string -> string) (w : Widgets) :
  (forall j, (j < num_constraints w)%nat ->
             relation_choice w j ∈ ["<="; ">="; "="]) ->
  length (form_var_names strip w) = num_vars w /\
  length (form_obj_coeffs strip w) = num_vars w /\
  length (form_constraints strip w) = num_constraints w /\
  Forall (fun c => length (fst (fst c)) = num_vars w /\
                   snd (fst c) ∈ ["<="; ">="; "="])
         (form_constraints strip w) /\
  ~ ill_formed (form_var_names strip w) (form_obj_coeffs strip w)
               (form_constraints strip w).
Proof.
  intros Hrel.
  split; [apply length_form_var_names|].
  split; [rewrite form_obj_coeffs_eq, length_map, length_seq; reflexivity|].
  split; [rewrite form_constraints_eq, length_map, length_seq; reflexivity|].
  split; [|apply form_not_ill_formed, Hrel].
  apply Forall_forall. intros c Hc.
  apply list_elem_of_lookup in Hc as (j & Hj).
  pose proof (lookup_lt_Some _ _ _ Hj) as Hlt.
  rewrite form_constraints_eq, length_map, length_seq in Hlt.
  rewrite form_constraints_lookup in Hj by exact Hlt. injection Hj as <-.
  cbn [fst snd]. split; [|apply Hrel, Hlt].
  rewrite length_map, length_seq. reflexivity.
Qed.

Lemma form_inputs_are_well_formed_witness :
  let w := mkWidgets 2 1 "Maximize" true
             (fun i => "x" +:+ pretty (i + 1)%nat) (fun _ => 1)
             (fun _ _ => 1) (fun _ => "<=") (fun _ => 4) in
  length (form_var_names (fun s => s) w) = 2%nat /\
  length (form_obj_coeffs (fun s => s) w) = 2%nat /\
  length (form_constraints (fun s => s) w) = 1%nat /\
  Forall (fun c => length (fst (fst c)) = 2%nat /\
                   snd (fst c) ∈ ["<="; ">="; "="])
         (form_constraints (fun s => s) w) /\
  ~ ill_formed (form_var_names (fun s => s) w) (form_obj_coeffs (fun s => s) w)
               (form_constraints (fun s => s) w).
Proof.
  intros w. apply (form_inputs_are_well_formed (fun s => s) w).
  intros j _. left.
Defined.

Lemma relation_sense_token (relation : string) :
  relation ∈ ["<="; ">="; "="] ->
  (relation_sense relation = LpConstraintLE <-> relation = "<=") /\
  (relation_sense relation = LpConstraintGE <-> relation = ">=") /\
  (relation_sense relation = LpConstraintEQ <-> relation = "=").
Proof.
  intros H. repeat (apply elem_of_cons in H as [->|H]);
    [| | |apply elem_of_nil in H; contradiction];
    cbn; repeat split; intros; congruence.
Qed.

(** Through the form nothing is dropped and no relation is changed: the
    model the page submits has one objective term per variable, in order,
    one constraint per row with one term per variable, the right-hand side
    as entered, and the relation chosen in the select box. *)
Theorem form_model_keeps_every_entry (strip : string -> string) (w : Widgets) :
  (forall j, (j < num_constraints w)%nat ->
             relation_choice w j ∈ ["<="; ">="; "="]) ->
  let m := form_model strip w in
  let lb := lower_bound (nonneg_checked w) in
  length (objective m) = num_vars w /\
  (forall i n, form_var_names strip w !! i = Some n ->
     objective m !! i = Some (obj_coeff_input w i, new_LpVariable n lb)) /\
  length (constraints m) = num_constraints w /\
  (forall j, (j < num_constraints w)%nat ->
     exists c,
       constraints m !! j = Some c /\
       cname c = "constr_" +:+ pretty (S j) /\
       rhs c = rhs_input w j /\
       length (expr c) = num_vars w /\
       (forall i n, form_var_names strip w !! i = Some n ->
          expr c !! i = Some (con_coeff_input w j i, new_LpVariable n lb)) /\
       (csense c = LpConstraintLE <-> relation_choice w j = "<=") /\
       (csense c = LpConstraintGE <-> relation_choice w j = ">=") /\
       (csense c = LpConstraintEQ <-> relation_choice w j = "=")).
Proof.
  intros Hrel m lb. unfold m, form_model, built_model. cbn [objective constraints].
  assert (forall (f : nat -> Q) i n,
            form_var_names strip w !! i = Some n ->
            paired_terms (nonneg_checked w) (map f (seq 0 (num_vars w)))
                         (form_var_names strip w) !! i =
              Some (f i, new_LpVariable n lb)) as Hterm.
  { intros f i n Hn. apply paired_terms_lookup; [|exact Hn].
    pose proof (lookup_lt_Some _ _ _ Hn) as Hlt.
    rewrite length_form_var_names in Hlt.
    rewrite map_fmap, list_lookup_fmap, lookup_seq_lt by exact Hlt. reflexivity. }
  assert (forall (f : nat -> Q),
            length (paired_terms (nonneg_checked w) (map f (seq 0 (num_vars w)))
                                 (form_var_names strip w)) = num_vars w) as Hlen.
  { intros f. rewrite length_paired_terms, length_map, length_seq,
      length_form_var_names. lia. }
  rewrite form_obj_coeffs_eq.
  split; [apply Hlen|]. split; [apply Hterm|].
  split.
  - rewrite length_map. unfold enumerate.
    rewrite length_zip_with, length_seq, form_constraints_eq, length_map, length_seq.
    lia.
  - intros j Hj. eexists. split.
    + rewrite map_fmap, list_lookup_fmap. unfold enumerate.
      rewrite lookup_zip_with, lookup_seq_lt
        by (rewrite form_constraints_eq, length_map, length_seq; exact Hj).
      cbn. rewrite form_constraints_lookup by exact Hj. cbn. reflexivity.
    + cbn [cname rhs expr csense].
      split; [reflexivity|]. split; [reflexivity|].
      split; [apply Hlen|]. split; [apply Hterm|].
      apply relation_sense_token, Hrel, Hj.
Qed.

Lemma form_model_keeps_every_entry_witness :
  let w := mkWidgets 2 1 "Maximize" true
             (fun i => "x" +:+ pretty (i + 1)%nat) (fun _ => 1)
             (fun _ _ => 1) (fun _ => "<=") (fun _ => 4) in
  length (objective (form_model (fun s => s) w)) = 2%nat /\
  length (constraints (form_model (fun s => s) w)) = 1%nat.
Proof.
  intros w.
  pose proof (form_model_keeps_every_entry (fun s => s) w) as H.
  cbn zeta in H. destruct H as (H1 & _ & H2 & _); [intros j _; left|].
  split; assumption.
Defined.

Lemma append_inv_head (p s t : string) : p +:+ s = p +:+ t -> s = t.
Proof.
  induction p as [|a p IH]; cbn; [tauto|]. intros H. injection H as H. exact (IH H).
Qed.

Lemma default_name_inj (i j : nat) :
  "x" +:+ pretty (i + 1)%nat = "x" +:+ pretty (j + 1)%nat -> i = j.
Proof.
  intros H. apply append_inv_head in H.
  pose proof (inj pretty _ _ H). lia.
Qed.

(** Names left blank or at their default become x1, x2, ...: they are
    pairwise distinct, so [build_model] creates one variable per column. *)
Theorem default_names_are_distinct (strip : string -> string) (w : Widgets) :
  (forall i, (i < num_vars w)%nat ->
     strip (var_name_input w i) = "" \/
     var_name_input w i = "x" +:+ pretty (i + 1)%nat) ->
  form_var_names strip w =
    map (fun i => "x" +:+ pretty (i + 1)%nat) (seq 0 (num_vars w)) /\
  NoDup (form_var_names strip w) /\
  size (built_variables (form_var_names strip w) (nonneg_checked w)) = num_vars w.
Proof.
  intros Hdef.
  assert (form_var_names strip w =
          map (fun i => "x" +:+ pretty (i + 1)%nat) (seq 0 (num_vars w))) as E.
  { unfold form_var_names. apply map_ext_in. intros i Hi.
    apply in_seq in Hi. cbn zeta.
    destruct (String.eqb_spec (strip (var_name_input w i)) "") as [_|Hne];
      [reflexivity|].
    destruct (Hdef i ltac:(lia)) as [H|H]; [contradiction|exact H]. }
  assert (NoDup (form_var_names strip w)) as Hnd.
  { rewrite E, map_fmap. apply NoDup_fmap_2_strong; [|apply NoDup_seq].
    intros i j _ _. apply default_name_inj. }
  split; [exact E|]. split; [exact Hnd|].
  rewrite size_built_variables.
  rewrite (proj2 (length_remove_dups_NoDup _) Hnd). apply length_form_var_names.
Qed.

Lemma default_names_are_distinct_witness :
  let w := mkWidgets 3 0 "Maximize" true
             (fun i => if Nat.eqb i 1 then "  " else "x" +:+ pretty (i + 1)%nat)
             (fun _ => 1) (fun _ _ => 1) (fun _ => "<=") (fun _ => 4) in
  let strip := fun s : string => if String.eqb s "  " then "" else s in
  form_var_names strip w = map (fun i => "x" +:+ pretty (i + 1)%nat) (seq 0 3) /\
  NoDup (form_var_names strip w) /\
  size (built_variables (form_var_names strip w) true) = 3%nat.
Proof.
  intros w strip. apply (default_names_are_distinct strip w).
  intros [|[|[|i]]] Hi; cbn in Hi; try lia.
  - right. reflexivity.
  - left. reflexivity.
  - right. reflexivity.
Defined.

(** ** [main]: what the page shows *)

Lemma main_solve_unfold (solver : Solver)
    (var_names : list string) (obj_coeffs : list Q)
    (rows : list (list Q * string * Q)) (sense_name : string) (nonneg : bool) :
  main_solve solver var_names obj_coeffs rows sense_name nonneg =
  match solver (built_model var_names obj_coeffs rows sense_name nonneg) with
  | inl e => [st_error e]
  | inr (st, vals) =>
      show_results
        (inr (mkLpProblem "User_Defined_LP"
                (if String.eqb sense_name "Maximize" then LpMaximize else LpMinimize)
                (paired_terms nonneg obj_coeffs var_names)
                (map (built_constraint nonneg var_names) (enumerate rows 1))
                st vals,
              built_variables var_names nonneg))
  end.
Proof.
  unfold main_solve. rewrite build_model_unfold.
  destruct (solver _) as [e|[st vals]]; reflexivity.
Qed.

(** Nothing is solved or shown before the button is pressed.  Once it
    is, a failure of the solver is not fatal: the page shows the error
    message and nothing else.  When the solver returns, the page shows its
    status and then either the table or the warning, never both and never
    an error. *)
Theorem main_shows_one_outcome (strip : string -> string) (solver : Solver) (w : Widgets) :
  main strip solver w false = [] /\
  (forall e, solver (form_model strip w) = inl e ->
     main strip solver w true = [st_error e]) /\
  (forall st vals, solver (form_model strip w) = inr (st, vals) ->
     let shown := main strip solver w true in
     st_write_status "**Status:**" (LpStatus st) ∈ shown /\
     existsb is_error shown = false /\
     xorb (existsb is_table shown) (existsb is_warning shown) = true /\
     existsb is_objective_value shown = existsb is_table shown).
Proof.
  split; [reflexivity|]. unfold main, form_model.
  split.
  - intros e He. rewrite main_solve_unfold, He. reflexivity.
  - intros st vals Hs. cbn zeta. rewrite main_solve_unfold, Hs.
    unfold show_results. cbn [status].
    destruct (String.eqb (LpStatus st) "Optimal"); cbn.
    + split; [right; left|]. repeat split.
    + split; [right; left|]. repeat split.
Qed.





(** ** Minimisation without constraints *)

Lemma eval_nonneg (rho : Valuation) (e : LpAffineExpression) :
  (forall t, In t e -> 0 <= fst t) ->
  (forall t, In t e -> 0 <= rho (name (snd t))) ->
  0 <= eval rho e.
Proof.
  induction e as [|t e IH]; intros Hc Hr; cbn [eval]; [discriminate|].
  assert (0 <= fst t) by (apply Hc; left; reflexivity).
  assert (0 <= rho (name (snd t))) by (apply Hr; left; reflexivity).
  assert (0 <= eval rho e)
    by (apply IH; intros t' Ht'; [apply Hc|apply Hr]; right; exact Ht').
  nra.
Qed.

Lemma built_model_orthant (var_names : list string) (obj_coeffs : list Q)
    (sense_name : string) (rho : Valuation) :
  feasible (built_model var_names obj_coeffs [] sense_name true) rho <->
  forall t, In t (paired_terms true obj_coeffs var_names) -> 0 <= rho (name (snd t)).
Proof.
  unfold feasible, lp_variables, built_model. cbn [objective constraints enumerate].
  cbn [length seq zip_with map flat_map]. rewrite app_nil_r, Forall_map, Forall_forall.
  assert (forall t, In t (paired_terms true obj_coeffs var_names) ->
                    nonneg_var (snd t) = true) as Hvars.
  { intros t Ht. pose proof (paired_terms_vars true obj_coeffs var_names) as H.
    rewrite Forall_forall in H.
    destruct (H t) as (n & _ & ->); [apply list_elem_of_In, Ht|]. reflexivity. }
  split.
  - intros [H _] t Ht.
    apply (nonneg_var_bounds rho (snd t)); [apply Hvars, Ht|].
    apply H, list_elem_of_In, Ht.
  - intros H. split; [|constructor]. intros t Ht. apply list_elem_of_In in Ht.
    apply (nonneg_var_bounds rho (snd t)); [apply Hvars, Ht|apply H, Ht].
Qed.

(** Every sense other than the exact string "Maximize" minimises.  A
    minimisation built with no constraint, [nonneg = True] and objective
    coefficients all >= 0 has its optimum, of value zero, at the origin:
    it is neither unbounded nor infeasible. *)
Theorem minimisation_over_orthant_is_bounded
    (var_names : list string) (obj_coeffs : list Q) (sense_name : string) :
  sense_name <> "Maximize" ->
  Forall (fun c => 0 <= c) obj_coeffs ->
  let m := built_model var_names obj_coeffs [] sense_name true in
  sense m = LpMinimize /\
  lp_optimum m (fun _ => 0) /\
  objective_at m (fun _ => 0) == 0 /\
  ~ lp_unbounded m /\
  ~ lp_infeasible m.
Proof.
  intros Hsense Hpos m.
  assert (sense m = LpMinimize) as Hmin.
  { unfold m, built_model. cbn [sense].
    destruct (String.eqb_spec sense_name "Maximize"); [contradiction|reflexivity]. }
  assert (forall t, In t (objective m) -> 0 <= fst t) as Hterms.
  { intros t Ht. rewrite Forall_forall in Hpos. apply Hpos, list_elem_of_In.
    apply (In_take _ (length var_names)), (In_paired_coeff true). eauto. }
  assert (feasible m (fun _ => 0)) as Horigin
    by (apply (proj2 (built_model_orthant var_names obj_coeffs sense_name _));
        intros t _; discriminate).
  assert (lp_optimum m (fun _ => 0)) as Hopt.
  { split; [exact Horigin|]. intros rho Hrho.
    rewrite Hmin. unfold better, objective_at. rewrite eval_origin.
    apply Qle_not_lt. apply eval_nonneg; [exact Hterms|].
    exact (proj1 (built_model_orthant var_names obj_coeffs sense_name rho) Hrho). }
  split; [exact Hmin|]. split; [exact Hopt|].
  split; [apply eval_origin|]. split.
  - intros Hunb. exact (unbounded_no_optimum m _ Hunb Hopt).
  - intros Hinf. exact (Hinf _ Horigin).
Qed.

Lemma minimisation_over_orthant_is_bounded_witness :
  let m := built_model ["x1"; "x2"] [3; 0] [] "maximize" true in
  sense m = LpMinimize /\
  lp_optimum m (fun _ => 0) /\
  objective_at m (fun _ => 0) == 0 /\
  ~ lp_unbounded m /\
  ~ lp_infeasible m.
Proof.
  apply (minimisation_over_orthant_is_bounded ["x1"; "x2"] [3; 0] "maximize").
  - discriminate.
  - repeat constructor; discriminate.
Defined.
